(** * Azure DevOps Branch Name Autofill: a shallow embedding

    The userscript watches the page for the "Create a branch" dialog, reads
    the linked work item out of the dialog, formats its title and writes the
    branch name into the dialog's input.  This file embeds the functions of
    the script ([formatTitle], [buildBranchName], [getWorkItemFromDialog],
    [setInputValue], [fillBranchName], [waitForWorkItem],
    [handleBranchDialog]) and states its properties.

    A JavaScript string is a sequence of UTF-16 code units; regular
    expressions without the [u] flag work on code units, so a string is a
    list of code units here. *)

From Stdlib Require Import List NArith Bool Lia Ascii String.
Import ListNotations.
Open Scope N_scope.
Open Scope list_scope.

(** ** Strings and character classes *)

Definition char := N.
Definition jsstring := list char.

(** An ASCII literal as a JavaScript string. *)
Definition str (s : string) : jsstring :=
  List.map N_of_ascii (list_ascii_of_string s).

Definition inRange (lo hi c : char) : bool := (lo <=? c) && (c <=? hi).

Definition isDigit (c : char) : bool := inRange 48 57 c.
Definition isUpper (c : char) : bool := inRange 65 90 c.
Definition isLower (c : char) : bool := inRange 97 122 c.

(** The class [[a-zA-Z0-9]]. *)
Definition isAlnum (c : char) : bool := isLower c || isUpper c || isDigit c.

(** The class [\w], which is [[A-Za-z0-9_]]. *)
Definition isWordChar (c : char) : bool := isAlnum c || (c =? 95).

(** ECMAScript LineTerminator: LF, CR, LS, PS.  The regular expression [.]
    matches every code unit but these. *)
Definition isLineTerminator (c : char) : bool :=
  (c =? 10) || (c =? 13) || (c =? 8232) || (c =? 8233).

(** ECMAScript WhiteSpace: TAB, VT, FF, ZWNBSP and the space separators. *)
Definition isWhiteSpace (c : char) : bool :=
  (c =? 9) || (c =? 11) || (c =? 12) || (c =? 32) || (c =? 160)
  || (c =? 5760) || inRange 8192 8202 c || (c =? 8239) || (c =? 8287)
  || (c =? 12288) || (c =? 65279).

(** The class [\s]; [String.prototype.trim] strips the same code units. *)
Definition isSpace (c : char) : bool := isWhiteSpace c || isLineTerminator c.

(** The regular expression [.] (no [s] flag). *)
Definition isDot (c : char) : bool := negb (isLineTerminator c).

Definition HYPHEN : char := 45.
Definition COLON : char := 58.
Definition SPACE : char := 32.

(** The class [[/\\|:;_~+&,>]] of [formatTitle]. *)
Definition isSeparatorPunct (c : char) : bool :=
  (c =? 47) || (c =? 92) || (c =? 124) || (c =? 58) || (c =? 59)
  || (c =? 95) || (c =? 126) || (c =? 43) || (c =? 38) || (c =? 44)
  || (c =? 62).

(** The class [[a-zA-Z0-9\s-]]; [formatTitle] deletes its complement. *)
Definition isKept (c : char) : bool := isAlnum c || isSpace c || (c =? HYPHEN).

(** The class [[\s-]] on which [formatTitle] splits. *)
Definition isSplitter (c : char) : bool := isSpace c || (c =? HYPHEN).

(** ** String operations *)

Definition isEmpty (s : jsstring) : bool :=
  match s with [] => true | _ :: _ => false end.

Definition startsWith (p : char -> bool) (s : jsstring) : bool :=
  match s with c :: _ => p c | [] => false end.

(** [s.replace(/[p]+/g, rep)]: every maximal run of code units of the class
    [p] is replaced by [rep].  The replacement is emitted at the last code
    unit of the run. *)
Fixpoint replaceRuns (p : char -> bool) (rep s : jsstring) : jsstring :=
  match s with
  | [] => []
  | c :: s' =>
      if p c then
        if startsWith p s' then replaceRuns p rep s'
        else rep ++ replaceRuns p rep s'
      else c :: replaceRuns p rep s'
  end.

(** [s.replace(/[^p]/g, "")]: only the code units of the class [p] stay. *)
Definition removeOutside (p : char -> bool) (s : jsstring) : jsstring :=
  List.filter p s.

Fixpoint trimStart (s : jsstring) : jsstring :=
  match s with
  | c :: s' => if isSpace c then trimStart s' else s
  | [] => []
  end.

Definition trimEnd (s : jsstring) : jsstring := rev (trimStart (rev s)).

(** [s.trim()]. *)
Definition trim (s : jsstring) : jsstring := trimEnd (trimStart s).

(** [s.split(/[p]+/)]: the pieces between the maximal runs of the class [p],
    with an empty piece before a leading run and after a trailing run;
    the empty string splits into one empty piece. *)
Fixpoint split (p : char -> bool) (s : jsstring) : list jsstring :=
  match s with
  | [] => [[]]
  | c :: s' =>
      if p c then
        if startsWith p s' then split p s' else [] :: split p s'
      else
        match split p s' with
        | w :: ws => (c :: w) :: ws
        | [] => [[c]]
        end
  end.

(** [Boolean] on a string: the empty string is falsy. *)
Definition Boolean (s : jsstring) : bool := negb (isEmpty s).

(** [toUpperCase] on one ASCII code unit.  [formatTitle] applies it to code
    units of [[a-zA-Z0-9]] only (lemma [formatTitle_words_alnum] below), where
    the Unicode case mapping is this one. *)
Definition toUpperCaseUnit (c : char) : char :=
  if isLower c then c - 32 else c.

Definition toUpperCase (s : jsstring) : jsstring := List.map toUpperCaseUnit s.

(** [s.charAt(i)]: the one code unit at [i], or the empty string. *)
Definition charAt (s : jsstring) (i : nat) : jsstring := firstn 1 (skipn i s).

(** [s.slice(i)] for [i >= 0]. *)
Definition slice (s : jsstring) (i : nat) : jsstring := skipn i s.

(** [ws.join(sep)]. *)
Fixpoint join (sep : jsstring) (ws : list jsstring) : jsstring :=
  match ws with
  | [] => []
  | w :: ws' =>
      match ws' with
      | [] => w
      | _ :: _ => w ++ sep ++ join sep ws'
      end
  end.

(** ** Configuration and the formatter *)

Definition BRANCH_PREFIX : jsstring := str "feature/".

(** The arrow function of [formatTitle]'s [map], over an upper-casing [up]. *)
Definition capitalizeWith (up : jsstring -> jsstring) (word : jsstring)
  : jsstring :=
  up (charAt word 0) ++ slice word 1.

Definition capitalize : jsstring -> jsstring := capitalizeWith toUpperCase.

(** The three steps of [formatTitle], in the order of the source. *)
Definition punctuationToSpaces (title : jsstring) : jsstring :=
  replaceRuns isSeparatorPunct [SPACE] title.

Definition stripSpecial (s : jsstring) : jsstring := removeOutside isKept s.

Definition collapseWhitespace (s : jsstring) : jsstring :=
  replaceRuns isSpace [SPACE] s.

(** The words of a title: everything of [formatTitle] before [map]. *)
Definition titleWords (title : jsstring) : list jsstring :=
  List.filter Boolean
    (split isSplitter
       (trim (collapseWhitespace (stripSpecial (punctuationToSpaces title))))).

Definition formatTitleWith (up : jsstring -> jsstring) (title : jsstring)
  : jsstring :=
  join [HYPHEN] (List.map (capitalizeWith up) (titleWords title)).

Definition formatTitle : jsstring -> jsstring := formatTitleWith toUpperCase.

(** The draft of [formatTitle] in the older copy of the script: no
    punctuation step, so punctuation is stripped, not turned into a space. *)
Definition formatTitle_draft (title : jsstring) : jsstring :=
  join [HYPHEN]
    (List.map capitalize
       (List.filter Boolean
          (split isSplitter (trim (collapseWhitespace (stripSpecial title)))))).

Definition buildBranchName (id title : jsstring) : jsstring :=
  BRANCH_PREFIX ++ id ++ [HYPHEN] ++ formatTitle title.

(** ** The extractor

    [getWorkItemFromDialog] matches the trimmed link text against
    [/^\w+\s+(\d+):\s*(.+)$/].  The matcher below is that expression, piece by
    piece, with the backtracking of the ECMAScript matcher: a greedy
    quantifier takes the longest run first and gives code units back when the
    rest of the expression fails. *)

Section Matcher.

Variable R : Type.

(** Greedy [[p]*] and then [k]: [k] gets the text matched so far and the
    rest of the input. *)
Fixpoint star (p : char -> bool) (k : jsstring -> jsstring -> option R)
  (matched s : jsstring) : option R :=
  match s with
  | c :: s' =>
      if p c then
        match star p k (matched ++ [c]) s' with
        | Some r => Some r
        | None => k matched s
        end
      else k matched s
  | [] => k matched s
  end.

(** Greedy [[p]+] and then [k]. *)
Definition plus (p : char -> bool) (k : jsstring -> jsstring -> option R)
  (s : jsstring) : option R :=
  match s with
  | c :: s' => if p c then star p k [c] s' else None
  | [] => None
  end.

(** One literal code unit and then [k]. *)
Definition lit (c0 : char) (k : jsstring -> option R) (s : jsstring)
  : option R :=
  match s with
  | c :: s' => if c =? c0 then k s' else None
  | [] => None
  end.

(** [$] without the [m] flag: the end of the input. *)
Definition atEnd (r : R) (s : jsstring) : option R :=
  match s with
  | [] => Some r
  | _ :: _ => None
  end.

End Matcher.

Arguments star {R} p k matched s.
Arguments plus {R} p k s.
Arguments lit {R} c0 k s.
Arguments atEnd {R} r s.

(** [text.match(/^\w+\s+(\d+):\s*(.+)$/)]: the captures 1 and 2, or [None]
    for [null].  Without the [m] flag [^] holds at index 0 only, so the
    search that [match] makes over the start indices succeeds at 0 or not at
    all. *)
Definition matchLinkText (text : jsstring) : option (jsstring * jsstring) :=
  plus isWordChar (fun _ s1 =>
  plus isSpace (fun _ s2 =>
  plus isDigit (fun g1 s3 =>
  lit COLON (fun s4 =>
  star isSpace (fun _ s5 =>
  plus isDot (fun g2 s6 =>
  atEnd (g1, g2) s6) s5) [] s4) s3) s2) s1) text.

Record WorkItem := { id : jsstring; title : jsstring }.

(** An [a] element: its [href] attribute (empty when absent) and its
    [textContent]. *)
Record Anchor := { href : jsstring; textContent : jsstring }.

(** What the script reads and writes of the branch-name input. *)
Record HTMLInputElement := {
  value : jsstring;
  dispatched : list string;   (* events the script dispatched, oldest first *)
  copyButton : bool;          (* addCopyButton has run on the element *)
  focused : bool;
  selected : bool             (* the whole value is selected *)
}.

(** What the script reads of a dialog: the element found by
    [querySelector("input.item-name-input")], and the [a] elements, in
    document order, below the element found by
    [querySelector(".region-createBranchDialogExtensions")]; [None] where
    [querySelector] gives [null]. *)
Record Dialog := {
  itemNameInput : option HTMLInputElement;
  extensionsRegion : option (list Anchor)
}.

Fixpoint isPrefix (a b : jsstring) : bool :=
  match a, b with
  | [], _ => true
  | x :: a', y :: b' => (x =? y) && isPrefix a' b'
  | _ :: _, [] => false
  end.

(** [hay.includes(needle)], the test of the selector [[href*="needle"]]. *)
Fixpoint includes (hay needle : jsstring) : bool :=
  isPrefix needle hay
  || match hay with
     | [] => false
     | _ :: hay' => includes hay' needle
     end.

(** [extensionsRegion.querySelector('a[href*="_workitems/edit/"]')]. *)
Definition queryWorkItemLink (anchors : list Anchor) : option Anchor :=
  List.find (fun a => includes (href a) (str "_workitems/edit/")) anchors.

(** The part of [getWorkItemFromDialog] from [const text] on. *)
Definition workItemOfLinkText (linkText : jsstring) : option WorkItem :=
  let text := trim linkText in
  match matchLinkText text with
  | None => None
  | Some (g1, g2) => Some {| id := g1; title := trim g2 |}
  end.

Definition getWorkItemFromDialog (dialog : Dialog) : option WorkItem :=
  match extensionsRegion dialog with
  | None => None
  | Some anchors =>
      match queryWorkItemLink anchors with
      | None => None
      | Some link => workItemOfLinkText (textContent link)
      end
  end.

(** ** The field writer *)

(** The native setter stores the value; the two events are dispatched to the
    host's listeners, which are code of the page, not of the script. *)
Definition setInputValue (input : HTMLInputElement) (v : jsstring)
  : HTMLInputElement :=
  {| value := v;
     dispatched := dispatched input ++ ["input"%string; "change"%string];
     copyButton := copyButton input;
     focused := focused input;
     selected := selected input |}.

(** [addCopyButton] decorates the surroundings of the field; it reads the
    value only in its click handler and never writes it. *)
Definition addCopyButton (input : HTMLInputElement) : HTMLInputElement :=
  {| value := value input;
     dispatched := dispatched input;
     copyButton := true;
     focused := focused input;
     selected := selected input |}.

Definition focus (input : HTMLInputElement) : HTMLInputElement :=
  {| value := value input;
     dispatched := dispatched input;
     copyButton := copyButton input;
     focused := true;
     selected := selected input |}.

Definition select (input : HTMLInputElement) : HTMLInputElement :=
  {| value := value input;
     dispatched := dispatched input;
     copyButton := copyButton input;
     focused := focused input;
     selected := true |}.

Definition fillBranchName (branchInput : HTMLInputElement) (workItem : WorkItem)
  : HTMLInputElement :=
  if negb (isEmpty (trim (value branchInput))) then branchInput
  else
    let branchName := buildBranchName (id workItem) (title workItem) in
    select (focus (addCopyButton (setInputValue branchInput branchName))).

(** ** The waiter

    [waitForWorkItem] leaves behind a closure state (the flag [settled]) and
    two registrations in the browser: the observer [workItemObserver] and the
    timer of [setTimeout].  [calls] is a history variable: the work items
    with which [fillBranchName] was called, oldest first. *)

Definition TIMEOUT_MS : N := 10000.

Record Waiter := {
  settled : bool;
  observing : bool;      (* workItemObserver is connected to the region *)
  timer : option N       (* the time the pending timer is due at, if pending *)
}.

(** The page during an episode.  [dialog] is queried anew at every
    extraction, so [region] is what the query finds now; [branchInput] is the
    element the closure holds; [waiter] is [None] as long as no closure of
    [waitForWorkItem] exists. *)
Record Page := {
  region : option (list Anchor);
  branchInput : HTMLInputElement;
  clock : N;                       (* milliseconds *)
  waiter : option Waiter;
  calls : list WorkItem
}.

Definition dialogOf (p : Page) : Dialog :=
  {| itemNameInput := Some (branchInput p); extensionsRegion := region p |}.

Definition setRegion (p : Page) (r : option (list Anchor)) : Page :=
  {| region := r; branchInput := branchInput p; clock := clock p;
     waiter := waiter p; calls := calls p |}.

Definition setBranchInput (p : Page) (i : HTMLInputElement) : Page :=
  {| region := region p; branchInput := i; clock := clock p;
     waiter := waiter p; calls := calls p |}.

Definition setClock (p : Page) (t : N) : Page :=
  {| region := region p; branchInput := branchInput p; clock := t;
     waiter := waiter p; calls := calls p |}.

Definition setWaiter (p : Page) (w : option Waiter) : Page :=
  {| region := region p; branchInput := branchInput p; clock := clock p;
     waiter := w; calls := calls p |}.

(** A call [fillBranchName(branchInput, wi)] on the page. *)
Definition callFillBranchName (p : Page) (wi : WorkItem) : Page :=
  {| region := region p;
     branchInput := fillBranchName (branchInput p) wi;
     clock := clock p;
     waiter := waiter p;
     calls := calls p ++ [wi] |}.

(** The callback of [workItemObserver], run with the closure state [w]. *)
Definition observerCallback (p : Page) (w : Waiter) : Page :=
  if settled w then p
  else
    match getWorkItemFromDialog (dialogOf p) with
    | Some wi =>
        callFillBranchName
          (setWaiter p
             (Some {| settled := true; observing := false; timer := timer w |}))
          wi
    | None => p
    end.

(** The callback given to [setTimeout], run with the closure state [w]. *)
Definition timeoutCallback (p : Page) (w : Waiter) : Page :=
  if negb (settled w) then
    setWaiter p
      (Some {| settled := true; observing := false; timer := timer w |})
  else p.

Definition waitForWorkItem (p : Page) : Page :=
  match getWorkItemFromDialog (dialogOf p) with
  | Some workItem => callFillBranchName p workItem
  | None =>
      setWaiter p
        (Some {| settled := false; observing := true;
                 timer := Some (clock p + TIMEOUT_MS) |})
  end.

(** [handleBranchDialog] at time [now]; [None] when it returns before
    [waitForWorkItem], having changed nothing. *)
Definition handleBranchDialog (dialog : Dialog) (now : N) : option Page :=
  match itemNameInput dialog with
  | None => None
  | Some input =>
      if negb (isEmpty (trim (value input))) then None
      else
        match extensionsRegion dialog with
        | None => None
        | Some anchors =>
            Some (waitForWorkItem
                    {| region := Some anchors; branchInput := input;
                       clock := now; waiter := None; calls := [] |})
        end
  end.

(** ** The event loop

    What can happen to a page after [waitForWorkItem] returned.  The browser
    runs one task at a time; a mutation observer's callback runs at the end
    of the task that changed the tree, a timer's callback in a task of its
    own, not before the timer is due. *)

Inductive Event :=
| RegionMutation (r : option (list Anchor))
    (* the host changes the tree below the observed region; the region lookup
       then yields [r]; a connected observer is called back *)
| HostUpdate (r : option (list Anchor))
    (* the host changes the tree elsewhere: no mutation record *)
| UserInput (v : jsstring)
    (* the user edits the field *)
| Elapse (dt : N)
    (* time passes *)
| TimerTask.
    (* the browser runs the callback of the pending timer *)

Definition typeInto (input : HTMLInputElement) (v : jsstring)
  : HTMLInputElement :=
  {| value := v;
     dispatched := dispatched input;
     copyButton := copyButton input;
     focused := focused input;
     selected := false |}.

(** One task; [None] when the browser cannot run that task in the state. *)
Definition step (p : Page) (e : Event) : option Page :=
  match e with
  | RegionMutation r =>
      let p' := setRegion p r in
      match waiter p' with
      | Some w => if observing w then Some (observerCallback p' w) else Some p'
      | None => Some p'
      end
  | HostUpdate r => Some (setRegion p r)
  | UserInput v => Some (setBranchInput p (typeInto (branchInput p) v))
  | Elapse dt => Some (setClock p (clock p + dt))
  | TimerTask =>
      match waiter p with
      | Some w =>
          match timer w with
          | Some due =>
              if due <=? clock p then
                let w' := {| settled := settled w; observing := observing w;
                             timer := None |} in
                Some (timeoutCallback (setWaiter p (Some w')) w')
              else None
          | None => None
          end
      | None => None
      end
  end.

Fixpoint run (p : Page) (es : list Event) : option Page :=
  match es with
  | [] => Some p
  | e :: es' =>
      match step p e with
      | Some p' => run p' es'
      | None => None
      end
  end.

(** The region content an event leaves behind, if it sets one. *)
Definition regionAfter (e : Event) : option (option (list Anchor)) :=
  match e with
  | RegionMutation r => Some r
  | HostUpdate r => Some r
  | _ => None
  end.

(** ** The older draft of the script

    The draft has no waiter: its [handleBranchDialog] extracts once and
    writes at once, or does nothing; its branch names use
    [formatTitle_draft]. *)



(** ** Reading a title in one pass

    What [formatTitle] makes of one code unit: it keeps it in the current
    word, ends the current word at it, or deletes it. *)

Inductive CharClass := Keep | Break | Drop.

Definition classify (c : char) : CharClass :=
  if isSeparatorPunct c then Break
  else if isKept c then (if isSplitter c then Break else Keep)
  else Drop.

(** The code units at which a title is cut: separator punctuation,
    whitespace and the hyphen. *)
Definition isBreak (c : char) : bool := isSeparatorPunct c || isSplitter c.

Definition push (w : jsstring) (ws : list jsstring) : list jsstring :=
  if isEmpty w then ws else w :: ws.

(** One step of the pass, from the right: the word under construction and
    the finished words behind it. *)
Definition scanStep (cls : char -> CharClass) (c : char)
  (acc : jsstring * list jsstring) : jsstring * list jsstring :=
  match cls c with
  | Keep => (c :: fst acc, snd acc)
  | Break => ([], push (fst acc) (snd acc))
  | Drop => acc
  end.

Definition scan (cls : char -> CharClass) (s : jsstring)
  : jsstring * list jsstring :=
  fold_right (scanStep cls) ([], []) s.

Definition wordsOf (cls : char -> CharClass) (s : jsstring) : list jsstring :=
  push (fst (scan cls s)) (snd (scan cls s)).

(** The class function of [split]: cut at the class, keep the rest. *)
Definition cutAt (p : char -> bool) (c : char) : CharClass :=
  if p c then Break else Keep.

(** The measure of a pass: the code units it holds, one more per finished
    word. *)
Definition passSize (acc : jsstring * list jsstring) : nat :=
  List.length (fst acc)
  + list_sum (List.map (fun w => S (List.length w)) (snd acc)).

(** Two hyphens side by side. *)
Fixpoint hasDoubleHyphen (s : jsstring) : bool :=
  match s with
  | c :: s' => ((c =? HYPHEN) && startsWith (fun x => x =? HYPHEN) s')
               || hasDoubleHyphen s'
  | [] => false
  end.

(** ** Notions used in the statements *)

(** Two formatted titles side by side: a hyphen between them when both
    have words. *)
Definition hyphenate (x y : jsstring) : jsstring :=
  if isEmpty x then y
  else if isEmpty y then x
  else x ++ [HYPHEN] ++ y.

Definition isHyphen (c : char) : bool := c =? HYPHEN.

(** A capitalized word: not empty, of [[a-zA-Z0-9]], no lower-case start. *)
Definition isCapitalizedWord (w : jsstring) : Prop :=
  w <> [] /\ Forall (fun c => isAlnum c = true) w
  /\ startsWith isLower w = false.

(** The pattern of the specification,
    [<word-token><whitespace><digits>:<optional-whitespace><free-text>],
    with the classes of the regular expression: a word token is a run of
    [\w], whitespace a run of [\s], the free text a non-empty run of [.]
    (text without a line terminator). *)
Definition matchesPattern (text digits free : jsstring) : Prop :=
  exists word ws ows,
    text = word ++ ws ++ digits ++ COLON :: ows ++ free
    /\ word <> [] /\ Forall (fun c => isWordChar c = true) word
    /\ ws <> [] /\ Forall (fun c => isSpace c = true) ws
    /\ digits <> [] /\ Forall (fun c => isDigit c = true) digits
    /\ Forall (fun c => isSpace c = true) ows
    /\ free <> [] /\ Forall (fun c => isDot c = true) free.

(** The work item a region content gives. *)
Definition workItemIn (r : option (list Anchor)) : option WorkItem :=
  getWorkItemFromDialog {| itemNameInput := None; extensionsRegion := r |}.

(** An event that leaves no extractable content behind. *)
Definition quiet (e : Event) : bool :=
  match regionAfter e with
  | Some r => match workItemIn r with Some _ => false | None => true end
  | None => true
  end.

Definition isTimerTask (e : Event) : bool :=
  match e with TimerTask => true | _ => false end.

(** The alphabet of a branch name: letters, digits, the hyphen and the
    slash of the prefix. *)
Definition isBranchChar (c : char) : bool :=
  isAlnum c || isHyphen c || (c =? 47).

(** The marker of a work-item link in the selector of
    [getWorkItemFromDialog]. *)
Definition isWorkItemLink (a : Anchor) : bool :=
  includes (href a) (str "_workitems/edit/").

Definition isUserInput (e : Event) : bool :=
  match e with UserInput _ => true | _ => false end.

(** ** Sample data *)

Definition emptyInput : HTMLInputElement :=
  {| value := []; dispatched := []; copyButton := false;
     focused := false; selected := false |}.

Definition typedInput : HTMLInputElement :=
  {| value := str "my-branch"; dispatched := []; copyButton := false;
     focused := true; selected := false |}.

Definition task100 : WorkItem :=
  {| id := str "100"; title := str "Add login page" |}.

Definition bug4821 : WorkItem :=
  {| id := str "4821"; title := str "Crash on save" |}.

Definition link100 : Anchor :=
  {| href := str "https://dev.azure.com/org/proj/_workitems/edit/100";
     textContent := str "Task 100: Add login page" |}.

Definition link4821 : Anchor :=
  {| href := str "https://dev.azure.com/org/proj/_workitems/edit/4821";
     textContent := str "Bug 4821: Crash on save" |}.

Definition linkMalformed : Anchor :=
  {| href := str "https://dev.azure.com/org/proj/_workitems/edit/7";
     textContent := str "Malformed line" |}.

Definition linkElsewhere : Anchor :=
  {| href := str "https://dev.azure.com/org/proj/_git/repo";
     textContent := str "Bug 9: Not a work item link" |}.

Definition page0 : Page :=
  {| region := Some []; branchInput := emptyInput; clock := 0;
     waiter := None; calls := [] |}.

Definition page4821 : Page :=
  {| region := Some [link4821]; branchInput := emptyInput; clock := 0;
     waiter := None; calls := [] |}.

Definition quietEpisode : list Event :=
  [RegionMutation (Some [linkMalformed]); Elapse 10004; TimerTask;
   RegionMutation (Some [linkMalformed; link100])].

(** ** Evaluations *)

Example formatTitle_ex1 :
  formatTitle (str "hello world example") = str "Hello-World-Example".
Proof. vm_compute. reflexivity. Qed.
Example formatTitle_ex2 :
  formatTitle (str "Fix: login/logout   bug!!") = str "Fix-Login-Logout-Bug".
Proof. vm_compute. reflexivity. Qed.
Example formatTitle_ex3 :
  formatTitle (str "--a__b--c d-") = str "A-B-C-D".
Proof. vm_compute. reflexivity. Qed.
Example formatTitle_ex4 :
  formatTitle_draft (str "login/logout") = str "Loginlogout".
Proof. vm_compute. reflexivity. Qed.
Example split_ex :
  split isSplitter (str "-a- -b-") = [str ""; str "a"; str "b"; str ""].
Proof. vm_compute. reflexivity. Qed.
Example match_ex1 :
  workItemOfLinkText (str "Bug 4821: Crash on save")
  = Some {| id := str "4821"; title := str "Crash on save" |}.
Proof. vm_compute. reflexivity. Qed.
Example match_ex2 : workItemOfLinkText (str "Malformed line") = None.
Proof. vm_compute. reflexivity. Qed.
Example match_ex3 :
  workItemOfLinkText (str "Bug 4821:   ") = None.
Proof. vm_compute. reflexivity. Qed.
Example match_ex4 :
  matchLinkText (str "Bug 4821:   ") = Some (str "4821", str " ").
Proof. vm_compute. reflexivity. Qed.

(** ** Character classes *)

Ltac char_unfold :=
  unfold isKept, isSplitter, isSeparatorPunct, isDot, isSpace, isWhiteSpace,
    isLineTerminator, isWordChar, isAlnum, isLower, isUpper, isDigit,
    inRange, HYPHEN, COLON, SPACE in *.

(** Turns a statement about the classes of code units into comparisons of
    numbers and leaves it to [lia]. *)
Ltac char_solve :=
  intros; char_unfold;
  repeat match goal with
  | |- _ = false => apply not_true_iff_false; intro
  | H : _ = false |- _ => apply not_true_iff_false in H
  end;
  rewrite ?orb_true_iff, ?andb_true_iff, ?N.eqb_eq, ?N.leb_le in *;
  lia.

Lemma alnum_not_space c : isAlnum c = true -> isSpace c = false.
Proof. char_solve. Qed.

Lemma alnum_not_punct c : isAlnum c = true -> isSeparatorPunct c = false.
Proof. char_solve. Qed.

Lemma alnum_not_splitter c : isAlnum c = true -> isSplitter c = false.
Proof. char_solve. Qed.

Lemma alnum_kept c : isAlnum c = true -> isKept c = true.
Proof. char_solve. Qed.

Lemma kept_not_splitter_alnum c :
  isKept c = true -> isSplitter c = false -> isAlnum c = true.
Proof. char_solve. Qed.

Lemma toUpperCaseUnit_alnum c :
  isAlnum c = true -> isAlnum (toUpperCaseUnit c) = true.
Proof.
  unfold toUpperCaseUnit. destruct (isLower c) eqn:E; [|tauto].
  revert E. char_solve.
Qed.

Lemma toUpperCaseUnit_not_lower c : isLower (toUpperCaseUnit c) = false.
Proof.
  unfold toUpperCaseUnit. destruct (isLower c) eqn:E; [|exact E].
  revert E. char_solve.
Qed.

Lemma toUpperCaseUnit_fixed c : isLower c = false -> toUpperCaseUnit c = c.
Proof. unfold toUpperCaseUnit. intros ->. reflexivity. Qed.

(** ** The string operations *)

Section Runs.

Variable p : char -> bool.

Lemma replaceRuns_In rep s c :
  In c (replaceRuns p rep s) -> In c rep \/ (In c s /\ p c = false).
Proof.
  induction s as [|a s IH]; simpl; [tauto|].
  destruct (p a) eqn:Ea.
  - destruct (startsWith p s).
    + intros H. destruct (IH H) as [?|[? ?]]; auto.
    + rewrite in_app_iff. intros [H|H]; [auto|].
      destruct (IH H) as [?|[? ?]]; auto.
  - simpl. intros [H|H].
    + subst. auto.
    + destruct (IH H) as [?|[? ?]]; auto.
Qed.

Lemma replaceRuns_id rep s :
  Forall (fun c => p c = false) s -> replaceRuns p rep s = s.
Proof.
  induction 1 as [|a s Ha _ IH]; simpl; [reflexivity|].
  rewrite Ha, IH. reflexivity.
Qed.

Lemma split_not_nil s : split p s <> [].
Proof.
  induction s as [|a s IH]; simpl; [discriminate|].
  destruct (p a).
  - destruct (startsWith p s); [exact IH|discriminate].
  - destruct (split p s); discriminate.
Qed.

(** A piece of [split] holds code units of the input outside the class. *)
Lemma split_In s w c :
  In w (split p s) -> In c w -> In c s /\ p c = false.
Proof.
  revert w. induction s as [|a s IH]; simpl; intros w.
  - intros [<-|[]] [].
  - destruct (p a) eqn:Ea.
    + destruct (startsWith p s).
      * intros Hw Hc. destruct (IH _ Hw Hc). auto.
      * intros [<-|Hw] Hc; [destruct Hc|]. destruct (IH _ Hw Hc). auto.
    + destruct (split p s) as [|t ts] eqn:Es.
      * intros [<-|[]] [<-|[]]. auto.
      * intros [<-|Hw] Hc.
        -- destruct Hc as [<-|Hc]; [auto|].
           destruct (IH t (or_introl eq_refl) Hc). auto.
        -- destruct (IH w (or_intror Hw) Hc). auto.
Qed.

(** A word without code units of the class stays in one piece. *)
Lemma split_app_word w r :
  Forall (fun c => p c = false) w ->
  split p (w ++ r)
  = match split p r with
    | t :: ts => (w ++ t) :: ts
    | [] => [w]
    end.
Proof.
  induction 1 as [|a w Ha _ IH]; simpl.
  - destruct (split p r) eqn:E; [|reflexivity].
    destruct (split_not_nil r E).
  - rewrite Ha, IH. destruct (split p r); reflexivity.
Qed.

Lemma startsWith_join sep w ws :
  w <> [] -> startsWith p (join sep (w :: ws)) = startsWith p w.
Proof.
  intros Hw. destruct w as [|a w]; [congruence|].
  simpl. destruct ws; reflexivity.
Qed.

(** Splitting what [join] glued with a one-unit separator of the class
    gives the words back. *)
Lemma split_join h ws :
  p h = true ->
  ws <> [] ->
  Forall (fun w => w <> [] /\ Forall (fun c => p c = false) w) ws ->
  split p (join [h] ws) = ws.
Proof.
  intros Hh Hne Hall. induction Hall as [|w ws [Hw Hfree] Hall IH];
    [congruence|].
  destruct ws as [|w' ws'].
  - simpl. rewrite <- (app_nil_r w) at 1.
    rewrite split_app_word by assumption. simpl.
    rewrite app_nil_r. reflexivity.
  - change (join [h] (w :: w' :: ws')) with (w ++ h :: join [h] (w' :: ws')).
    rewrite split_app_word by assumption.
    assert (Hs : startsWith p (join [h] (w' :: ws')) = false).
    { inversion Hall as [|? ? [Hw' Hfree'] _]; subst.
      rewrite startsWith_join by assumption.
      destruct w' as [|a ?]; [congruence|].
      simpl. inversion Hfree'; assumption. }
    change (split p (h :: join [h] (w' :: ws')))
      with (if p h
            then if startsWith p (join [h] (w' :: ws'))
                 then split p (join [h] (w' :: ws'))
                 else [] :: split p (join [h] (w' :: ws'))
            else match split p (join [h] (w' :: ws')) with
                 | t :: ts => (h :: t) :: ts
                 | [] => [[h]]
                 end).
    rewrite Hh, Hs, IH by discriminate.
    rewrite app_nil_r. reflexivity.
Qed.

End Runs.

Lemma trimStart_In s c : In c (trimStart s) -> In c s.
Proof.
  induction s as [|a s IH]; simpl; [tauto|].
  destruct (isSpace a); simpl; auto.
Qed.

Lemma trim_In s c : In c (trim s) -> In c s.
Proof.
  unfold trim, trimEnd. intros H.
  apply in_rev in H. apply trimStart_In in H. apply in_rev in H.
  apply trimStart_In in H. exact H.
Qed.

Lemma trimStart_id s :
  startsWith isSpace s = false -> trimStart s = s.
Proof. destruct s as [|a s]; simpl; [reflexivity|]. intros ->. reflexivity. Qed.

Lemma trim_id s :
  Forall (fun c => isSpace c = false) s -> trim s = s.
Proof.
  intros H. unfold trim, trimEnd.
  assert (Hs : forall t, Forall (fun c => isSpace c = false) t ->
                         trimStart t = t).
  { intros t Ht. apply trimStart_id. destruct Ht; simpl; auto. }
  rewrite (Hs s H), Hs, rev_involutive; [reflexivity|].
  apply Forall_rev. exact H.
Qed.

(** A string of whitespace trims to the empty string. *)
Lemma trimStart_spaces s :
  Forall (fun c => isSpace c = true) s -> trimStart s = [].
Proof. induction 1 as [|a s Ha _ IH]; simpl; [reflexivity|]. rewrite Ha. exact IH. Qed.

Lemma join_In sep ws c :
  In c (join sep ws) -> In c sep \/ exists w, In w ws /\ In c w.
Proof.
  induction ws as [|w ws IH]; simpl; [tauto|].
  destruct ws as [|w' ws'].
  - intros H. right. exists w. auto.
  - rewrite !in_app_iff. intros [H|[H|H]].
    + right. exists w. auto.
    + auto.
    + destruct (IH H) as [?|[x [Hx Hc]]]; [auto|].
      right. exists x. auto.
Qed.

(** ** The formatter *)

Lemma splitter_space : isSplitter SPACE = true.
Proof. reflexivity. Qed.

(** Every word of a title is non-empty and made of code units of
    [[a-zA-Z0-9]] that occur in the title. *)
Lemma titleWords_spec title w :
  In w (titleWords title) ->
  w <> [] /\ forall c, In c w -> isAlnum c = true /\ In c title.
Proof.
  unfold titleWords. rewrite filter_In. intros [Hw Hb]. split.
  - destruct w; [discriminate|discriminate].
  - intros c Hc.
    destruct (split_In _ _ _ _ Hw Hc) as [Hin Hsplit].
    apply trim_In in Hin. unfold collapseWhitespace in Hin.
    apply replaceRuns_In in Hin. destruct Hin as [[<-|[]]|[Hin _]];
      [rewrite splitter_space in Hsplit; discriminate|].
    unfold stripSpecial, removeOutside in Hin. apply filter_In in Hin.
    destruct Hin as [Hin Hk]. split.
    + apply kept_not_splitter_alnum; assumption.
    + unfold punctuationToSpaces in Hin. apply replaceRuns_In in Hin.
      destruct Hin as [[<-|[]]|[Hin _]];
        [rewrite splitter_space in Hsplit; discriminate|exact Hin].
Qed.

Lemma formatTitle_words_alnum title w :
  In w (titleWords title) -> w <> [] /\ Forall (fun c => isAlnum c = true) w.
Proof.
  intros H. destruct (titleWords_spec _ _ H) as [Hne Hc]. split; [exact Hne|].
  apply Forall_forall. intros c Hin. apply (Hc c Hin).
Qed.

(** [formatTitle] upper-cases code units of [[a-zA-Z0-9]] only: any
    upper-casing that agrees with [toUpperCase] there gives the same result. *)
Lemma formatTitleWith_ascii up title :
  (forall c, isAlnum c = true -> up [c] = toUpperCase [c]) ->
  formatTitleWith up title = formatTitle title.
Proof.
  intros Hup. unfold formatTitle, formatTitleWith. f_equal.
  apply map_ext_in. intros w Hw.
  destruct (formatTitle_words_alnum _ _ Hw) as [Hne Hall].
  destruct w as [|c w]; [congruence|].
  unfold capitalizeWith. inversion Hall; subst.
  change (charAt (c :: w) 0) with [c].
  rewrite (Hup c) by assumption. reflexivity.
Qed.

Lemma capitalize_word w :
  w <> [] -> Forall (fun c => isAlnum c = true) w ->
  isCapitalizedWord (capitalize w).
Proof.
  intros Hne Hall. destruct w as [|c w]; [congruence|].
  inversion Hall; subst. unfold capitalize, capitalizeWith. simpl.
  repeat split.
  - discriminate.
  - constructor; [apply toUpperCaseUnit_alnum|]; assumption.
  - apply toUpperCaseUnit_not_lower.
Qed.

Lemma capitalize_fixed w : isCapitalizedWord w -> capitalize w = w.
Proof.
  intros (Hne & _ & Hs). destruct w as [|c w]; [congruence|].
  unfold capitalize, capitalizeWith. simpl in *.
  rewrite toUpperCaseUnit_fixed by assumption. reflexivity.
Qed.

Lemma formatTitle_words title :
  Forall isCapitalizedWord (List.map capitalize (titleWords title)).
Proof.
  apply Forall_forall. intros w Hw. apply in_map_iff in Hw.
  destruct Hw as [v [<- Hv]].
  destruct (formatTitle_words_alnum _ _ Hv). apply capitalize_word; assumption.
Qed.

Lemma filter_all {A} (f : A -> bool) l :
  Forall (fun x => f x = true) l -> List.filter f l = l.
Proof. induction 1 as [|a l Ha _ IH]; simpl; [|rewrite Ha, IH]; reflexivity. Qed.

Lemma map_fixed {A} (f : A -> A) l :
  Forall (fun x => f x = x) l -> List.map f l = l.
Proof. induction 1 as [|a l Ha _ IH]; simpl; [|rewrite Ha, IH]; reflexivity. Qed.

(** The words of hyphen-joined capitalized words are those words. *)
Lemma titleWords_join ws :
  Forall isCapitalizedWord ws -> titleWords (join [HYPHEN] ws) = ws.
Proof.
  intros Hws.
  assert (Hc : forall c, In c (join [HYPHEN] ws) ->
                         isAlnum c = true \/ c = HYPHEN).
  { intros c Hin. apply join_In in Hin. destruct Hin as [[<-|[]]|[w [Hw Hin]]];
      [auto|].
    left. rewrite Forall_forall in Hws. destruct (Hws w Hw) as (_ & Ha & _).
    rewrite Forall_forall in Ha. auto. }
  unfold titleWords, punctuationToSpaces.
  rewrite replaceRuns_id.
  2:{ apply Forall_forall. intros c Hin.
      destruct (Hc c Hin) as [H| ->]; [apply alnum_not_punct, H|reflexivity]. }
  unfold stripSpecial, removeOutside. rewrite (filter_all isKept).
  2:{ apply Forall_forall. intros c Hin.
      destruct (Hc c Hin) as [H| ->]; [apply alnum_kept, H|reflexivity]. }
  assert (Hsp : Forall (fun c => isSpace c = false) (join [HYPHEN] ws)).
  { apply Forall_forall. intros c Hin.
    destruct (Hc c Hin) as [H| ->]; [apply alnum_not_space, H|reflexivity]. }
  unfold collapseWhitespace. rewrite replaceRuns_id by exact Hsp.
  rewrite trim_id by exact Hsp.
  destruct ws as [|w ws']; [reflexivity|].
  rewrite split_join; [|reflexivity|discriminate|].
  - apply filter_all. eapply Forall_impl; [|exact Hws].
    intros v (Hne & _). destruct v; [congruence|reflexivity].
  - eapply Forall_impl; [|exact Hws].
    intros v (Hne & Ha & _). split; [exact Hne|].
    eapply Forall_impl; [|exact Ha]. intros c. apply alnum_not_splitter.
Qed.

(** A title without a code unit of [[a-zA-Z0-9]] has no words. *)
Lemma titleWords_no_alnum title :
  Forall (fun c => isAlnum c = false) title -> titleWords title = [].
Proof.
  intros Hno. destruct (titleWords title) as [|w ws] eqn:E; [reflexivity|].
  assert (Hw : In w (titleWords title)) by (rewrite E; left; reflexivity).
  destruct (titleWords_spec _ _ Hw) as [Hne Hc].
  destruct w as [|c w]; [congruence|].
  destruct (Hc c (or_introl eq_refl)) as [Ha Hin].
  rewrite Forall_forall in Hno. rewrite (Hno c Hin) in Ha. discriminate.
Qed.

Lemma formatTitle_no_alnum title :
  Forall (fun c => isAlnum c = false) title -> formatTitle title = [].
Proof.
  intros H. unfold formatTitle, formatTitleWith.
  rewrite titleWords_no_alnum by exact H. reflexivity.
Qed.

Lemma space_not_alnum c : isSpace c = true -> isAlnum c = false.
Proof.
  intros H. destruct (isAlnum c) eqn:E; [|reflexivity].
  rewrite (alnum_not_space _ E) in H. discriminate.
Qed.

(** C8: for every input string, the output of [formatTitle] is a sequence
    of non-empty words of ASCII letters and digits joined by single hyphens;
    so every code unit of the output is an ASCII letter, an ASCII digit or a
    hyphen, and none is whitespace or punctuation. *)
Theorem formatTitle_output_alphabet (title : jsstring) :
  (exists ws, formatTitle title = join [HYPHEN] ws
              /\ Forall (fun w => w <> []
                                  /\ Forall (fun c => isAlnum c = true) w) ws)
  /\ Forall (fun c => (isAlnum c = true \/ c = HYPHEN)
                      /\ isSpace c = false /\ isSeparatorPunct c = false)
       (formatTitle title).
Proof.
  pose proof (formatTitle_words title) as Hws.
  assert (Hw : Forall (fun w => w <> []
                                /\ Forall (fun c => isAlnum c = true) w)
                 (List.map capitalize (titleWords title))).
  { eapply Forall_impl; [|exact Hws]. intros w (? & ? & _). auto. }
  split.
  - exists (List.map capitalize (titleWords title)). split; [reflexivity|exact Hw].
  - apply Forall_forall. intros c Hin.
    unfold formatTitle, formatTitleWith in Hin. apply join_In in Hin.
    destruct Hin as [[<-|[]]|[w [Hin Hc]]].
    + repeat split; auto.
    + rewrite Forall_forall in Hw. destruct (Hw w Hin) as [_ Ha].
      rewrite Forall_forall in Ha. specialize (Ha c Hc).
      repeat split; [auto|apply alnum_not_space|apply alnum_not_punct];
        assumption.
Qed.

(** C9: formatting is idempotent: [formatTitle (formatTitle s)] is
    [formatTitle s] for every string [s]. *)
Theorem formatTitle_idempotent (s : jsstring) :
  formatTitle (formatTitle s) = formatTitle s.
Proof.
  pose proof (formatTitle_words s) as Hws.
  unfold formatTitle at 1. unfold formatTitleWith.
  change (formatTitle s) with (join [HYPHEN] (List.map capitalize (titleWords s))).
  rewrite titleWords_join by exact Hws.
  f_equal. apply map_fixed.
  eapply Forall_impl; [|exact Hws]. intros w. apply capitalize_fixed.
Qed.

(** C4: [formatTitle] turns punctuation into spaces first and strips the
    remaining special characters second (so ["login/logout"] keeps its word
    boundary, which the opposite order and the older draft lose); it maps
    ["hello world example"] to ["Hello-World-Example"] and
    ["Fix: login/logout   bug!!"] to ["Fix-Login-Logout-Bug"], and every empty or
    whitespace-only input to the empty string. *)
Theorem formatTitle_canonical :
  (forall title,
     formatTitle title
     = join [HYPHEN]
         (List.map capitalize
            (List.filter Boolean
               (split isSplitter
                  (trim
                     (collapseWhitespace
                        (stripSpecial (punctuationToSpaces title))))))))
  /\ stripSpecial (punctuationToSpaces (str "login/logout")) = str "login logout"
  /\ punctuationToSpaces (stripSpecial (str "login/logout")) = str "loginlogout"
  /\ formatTitle (str "login/logout") = str "Login-Logout"
  /\ formatTitle_draft (str "login/logout") = str "Loginlogout"
  /\ formatTitle (str "hello world example") = str "Hello-World-Example"
  /\ formatTitle (str "Fix: login/logout   bug!!") = str "Fix-Login-Logout-Bug"
  /\ formatTitle (str "") = str ""
  /\ (forall title, forallb isSpace title = true -> formatTitle title = str "").
Proof.
  split; [reflexivity|].
  repeat (split; [vm_compute; reflexivity|]).
  intros title H. apply formatTitle_no_alnum.
  rewrite forallb_forall in H. apply Forall_forall.
  intros c Hc. apply space_not_alnum. auto.
Qed.

Lemma formatTitle_canonical_witness :
  forallb isSpace [32; 9; 10; 160; 12288] = true
  /\ formatTitle [32; 9; 10; 160; 12288] = str "".
Proof.
  split; [reflexivity|].
  apply (proj2 (proj2 (proj2 (proj2 (proj2 (proj2 (proj2
           (proj2 formatTitle_canonical)))))))).
  reflexivity.
Defined.

(** ** The field writer *)

Lemma trimStart_keeps s c :
  In c s -> isSpace c = false -> In c (trimStart s).
Proof.
  induction s as [|a s IH]; simpl; [tauto|].
  intros [->|Hin] Hc.
  - rewrite Hc. left. reflexivity.
  - destruct (isSpace a); [auto|]. right. exact Hin.
Qed.

Lemma trim_keeps s c : In c s -> isSpace c = false -> In c (trim s).
Proof.
  intros Hin Hc. unfold trim, trimEnd. apply -> in_rev.
  apply trimStart_keeps; [|exact Hc]. apply -> in_rev.
  apply trimStart_keeps; assumption.
Qed.

(** A branch name is never blank: it starts with the prefix. *)
Lemma buildBranchName_not_blank i t :
  isEmpty (trim (buildBranchName i t)) = false.
Proof.
  assert (H : In 102 (trim (buildBranchName i t))).
  { apply trim_keeps; [|reflexivity]. left. reflexivity. }
  destruct (trim (buildBranchName i t)); [destruct H|reflexivity].
Qed.

Lemma fillBranchName_skip input wi :
  isEmpty (trim (value input)) = false -> fillBranchName input wi = input.
Proof. unfold fillBranchName. intros ->. reflexivity. Qed.

Lemma fillBranchName_value input wi :
  isEmpty (trim (value input)) = true ->
  value (fillBranchName input wi) = buildBranchName (id wi) (title wi).
Proof. unfold fillBranchName. intros ->. reflexivity. Qed.

Lemma fillBranchName_not_blank input wi :
  isEmpty (trim (value (fillBranchName input wi))) = false.
Proof.
  destruct (isEmpty (trim (value input))) eqn:E.
  - rewrite fillBranchName_value by exact E. apply buildBranchName_not_blank.
  - rewrite fillBranchName_skip by exact E. exact E.
Qed.

(** C3: [fillBranchName] never overwrites a field that is not blank: such a
    field is left as it is, whatever the work item; so a second call after a
    call that left the field non-blank changes nothing (and every call
    leaves the field non-blank). *)
Theorem fillBranchName_never_overwrites
  (input : HTMLInputElement) (wi wi2 : WorkItem) :
  (isEmpty (trim (value input)) = false -> fillBranchName input wi = input)
  /\ (isEmpty (trim (value (fillBranchName input wi))) = false ->
      fillBranchName (fillBranchName input wi) wi2 = fillBranchName input wi)
  /\ isEmpty (trim (value (fillBranchName input wi))) = false.
Proof.
  split; [apply fillBranchName_skip|].
  split; [apply fillBranchName_skip|apply fillBranchName_not_blank].
Qed.

Lemma fillBranchName_never_overwrites_witness :
  fillBranchName typedInput task100 = typedInput
  /\ fillBranchName (fillBranchName emptyInput task100) bug4821
     = fillBranchName emptyInput task100
  /\ value (fillBranchName emptyInput task100) = str "feature/100-Add-Login-Page".
Proof.
  split; [|split].
  - apply (proj1 (fillBranchName_never_overwrites typedInput task100 bug4821)).
    reflexivity.
  - apply (proj1 (proj2 (fillBranchName_never_overwrites
                           emptyInput task100 bug4821))).
    reflexivity.
  - reflexivity.
Defined.

(** C10: [buildBranchName] emits the hyphen after the id unconditionally;
    for a title whose formatted form is empty the branch name is the prefix,
    the id and a trailing hyphen, and that is the value [fillBranchName]
    writes into a blank field. *)
Theorem buildBranchName_empty_title (i t : jsstring) :
  buildBranchName i t = str "feature/" ++ i ++ str "-" ++ formatTitle t
  /\ (formatTitle t = str "" ->
      buildBranchName i t = str "feature/" ++ i ++ str "-"
      /\ forall input,
           isEmpty (trim (value input)) = true ->
           value (fillBranchName input {| id := i; title := t |})
           = str "feature/" ++ i ++ str "-").
Proof.
  split; [reflexivity|]. intros Ht.
  assert (Hb : buildBranchName i t = str "feature/" ++ i ++ str "-").
  { unfold buildBranchName. rewrite Ht. reflexivity. }
  split; [exact Hb|].
  intros input Hin. rewrite fillBranchName_value by exact Hin. exact Hb.
Qed.

Lemma buildBranchName_empty_title_witness :
  formatTitle (str "?!. ") = str ""
  /\ buildBranchName (str "123") (str "?!. ") = str "feature/123-"
  /\ value (fillBranchName emptyInput {| id := str "123"; title := str "?!. " |})
     = str "feature/123-".
Proof.
  split; [reflexivity|].
  destruct (proj2 (buildBranchName_empty_title (str "123") (str "?!. "))
              eq_refl) as [Hb Hf].
  split; [exact Hb|]. apply (Hf emptyInput). reflexivity.
Defined.

(** ** The extractor *)

Section MatcherFacts.

Variable R : Type.
Variable p : char -> bool.
Variable k : jsstring -> jsstring -> option R.

(** What [star] returns, the continuation returned on a run of the class. *)
Lemma star_sound s : forall matched r,
  star p k matched s = Some r ->
  exists run rest,
    s = run ++ rest /\ Forall (fun c => p c = true) run
    /\ k (matched ++ run) rest = Some r.
Proof.
  assert (Hnil : forall matched rest r,
            k matched rest = Some r ->
            exists run rest',
              rest = run ++ rest' /\ Forall (fun c => p c = true) run
              /\ k (matched ++ run) rest' = Some r).
  { intros matched rest r H. exists [], rest. rewrite app_nil_r.
    repeat split; [constructor|exact H]. }
  induction s as [|c s IH]; intros matched r; simpl.
  - apply Hnil.
  - destruct (p c) eqn:Ec; [|apply Hnil].
    destruct (star p k (matched ++ [c]) s) as [r'|] eqn:Es; [|apply Hnil].
    intros [= <-]. destruct (IH _ _ Es) as (run & rest & -> & Hrun & Hk).
    exists (c :: run), rest. rewrite <- app_assoc in Hk.
    repeat split; [constructor; assumption|exact Hk].
Qed.

(** [star] succeeds when the continuation succeeds after some run. *)
Lemma star_complete run : forall matched rest,
  Forall (fun c => p c = true) run ->
  k (matched ++ run) rest <> None ->
  star p k matched (run ++ rest) <> None.
Proof.
  induction run as [|c run IH]; intros matched rest Hrun Hk.
  - rewrite app_nil_r in Hk. simpl. destruct rest as [|c s]; [exact Hk|].
    simpl. destruct (p c); [|exact Hk].
    destruct (star p k (matched ++ [c]) s); [discriminate|exact Hk].
  - inversion Hrun as [|? ? Hc Hrun']; subst. simpl. rewrite Hc.
    assert (H : star p k (matched ++ [c]) (run ++ rest) <> None).
    { apply IH; [exact Hrun'|]. rewrite <- app_assoc. exact Hk. }
    destruct (star p k (matched ++ [c]) (run ++ rest)); [discriminate|].
    congruence.
Qed.

Lemma plus_sound s r :
  plus p k s = Some r ->
  exists run rest,
    s = run ++ rest /\ run <> [] /\ Forall (fun c => p c = true) run
    /\ k run rest = Some r.
Proof.
  destruct s as [|c s]; simpl; [discriminate|].
  destruct (p c) eqn:Ec; [|discriminate].
  intros H. destruct (star_sound _ _ _ H) as (run & rest & -> & Hrun & Hk).
  exists (c :: run), rest.
  repeat split; [discriminate|constructor; assumption|exact Hk].
Qed.

Lemma plus_complete run rest :
  run <> [] -> Forall (fun c => p c = true) run ->
  k run rest <> None ->
  plus p k (run ++ rest) <> None.
Proof.
  intros Hne Hrun Hk. destruct run as [|c run]; [congruence|].
  inversion Hrun as [|? ? Hc Hrun']; subst. simpl. rewrite Hc.
  apply star_complete; assumption.
Qed.

(** Two runs of one class that both end before a code unit outside the
    class (or at the end) are the same run. *)
Lemma run_unique a : forall a' r r',
  Forall (fun c => p c = true) a -> Forall (fun c => p c = true) a' ->
  startsWith p r = false -> startsWith p r' = false ->
  a ++ r = a' ++ r' -> a = a' /\ r = r'.
Proof.
  induction a as [|c a IH]; intros a' r r' Ha Ha' Hr Hr' E.
  - destruct a' as [|c' a']; [auto|].
    simpl in E. subst r. inversion Ha'; subst. simpl in Hr. congruence.
  - inversion Ha as [|? ? Hc Hat]; subst. destruct a' as [|c' a'].
    + simpl in E. subst r'. simpl in Hr'. congruence.
    + inversion Ha'; subst. simpl in E. injection E as -> E.
      destruct (IH a' r r') as [-> ->]; auto.
Qed.

End MatcherFacts.

Lemma trimStart_app_spaces ows s :
  Forall (fun c => isSpace c = true) ows -> trimStart (ows ++ s) = trimStart s.
Proof. induction 1 as [|c ows Hc _ IH]; simpl; [|rewrite Hc]; auto. Qed.

Lemma trim_app_spaces ows s :
  Forall (fun c => isSpace c = true) ows -> trim (ows ++ s) = trim s.
Proof. intros H. unfold trim. rewrite trimStart_app_spaces by exact H. reflexivity. Qed.

(** The match gives the captures of a decomposition of the text. *)
Lemma matchLinkText_sound text g1 g2 :
  matchLinkText text = Some (g1, g2) -> matchesPattern text g1 g2.
Proof.
  unfold matchLinkText. intros H.
  apply plus_sound in H. destruct H as (word & s1 & -> & Hw1 & Hw2 & H).
  apply plus_sound in H. destruct H as (ws & s2 & -> & Hs1 & Hs2 & H).
  apply plus_sound in H. destruct H as (ds & s3 & -> & Hd1 & Hd2 & H).
  destruct s3 as [|c s4]; simpl in H; [discriminate|].
  destruct (N.eqb_spec c COLON) as [->|]; [|discriminate].
  apply star_sound in H. destruct H as (ows & s5 & -> & Ho & H).
  apply plus_sound in H. destruct H as (free & s6 & -> & Hf1 & Hf2 & H).
  destruct s6; simpl in H; [|discriminate]. injection H as <- <-.
  exists word, ws, ows. rewrite app_nil_r. repeat split; assumption.
Qed.

(** The text of a decomposition matches. *)
Lemma matchLinkText_complete text digits free :
  matchesPattern text digits free -> matchLinkText text <> None.
Proof.
  intros (word & ws & ows & -> & Hw1 & Hw2 & Hs1 & Hs2 & Hd1 & Hd2 & Ho
          & Hf1 & Hf2).
  unfold matchLinkText.
  apply plus_complete; [assumption..|].
  apply plus_complete; [assumption..|].
  apply plus_complete; [assumption..|].
  simpl. apply (star_complete _ isSpace _ ows [] free); [assumption|].
  rewrite <- (app_nil_r free). apply plus_complete; [assumption..|].
  discriminate.
Qed.

Lemma word_not_space c : isWordChar c = true -> isSpace c = false.
Proof. char_solve. Qed.
Lemma space_not_digit c : isSpace c = true -> isDigit c = false.
Proof. char_solve. Qed.
Lemma digit_not_word_start c : isDigit c = true -> isWordChar c = true.
Proof. char_solve. Qed.

Lemma startsWith_app_false (p q : char -> bool) a r :
  a <> [] -> Forall (fun c => q c = true) a ->
  (forall c, q c = true -> p c = false) ->
  startsWith p (a ++ r) = false.
Proof.
  intros Hne Ha Hpq. destruct a as [|c a]; [congruence|].
  inversion Ha; subst. simpl. auto.
Qed.

(** The digits and the text after the colon are the same in every
    decomposition of one text. *)
Lemma matchesPattern_unique text d f d' f' :
  matchesPattern text d f -> matchesPattern text d' f' ->
  d = d' /\ trim f = trim f'.
Proof.
  intros (word & ws & ows & -> & Hw1 & Hw2 & Hs1 & Hs2 & Hd1 & Hd2 & Ho
          & Hf1 & Hf2).
  intros (word' & ws' & ows' & E & Hw1' & Hw2' & Hs1' & Hs2' & Hd1' & Hd2'
          & Ho' & Hf1' & Hf2').
  apply (run_unique isWordChar) in E; try assumption.
  2:{ apply (startsWith_app_false _ isSpace); auto.
      intros c Hc. destruct (isWordChar c) eqn:Ec; [|reflexivity].
      rewrite (word_not_space _ Ec) in Hc. discriminate. }
  2:{ apply (startsWith_app_false _ isSpace); auto.
      intros c Hc. destruct (isWordChar c) eqn:Ec; [|reflexivity].
      rewrite (word_not_space _ Ec) in Hc. discriminate. }
  destruct E as [_ E].
  apply (run_unique isSpace) in E; try assumption.
  2:{ apply (startsWith_app_false _ isDigit); auto.
      intros c Hc. apply word_not_space, digit_not_word_start, Hc. }
  2:{ apply (startsWith_app_false _ isDigit); auto.
      intros c Hc. apply word_not_space, digit_not_word_start, Hc. }
  destruct E as [_ E].
  apply (run_unique isDigit) in E; try assumption; try reflexivity.
  destruct E as [-> E]. injection E as E. split; [reflexivity|].
  rewrite <- (trim_app_spaces ows f), <- (trim_app_spaces ows' f') by assumption.
  rewrite E. reflexivity.
Qed.

(** C6: the extractor returns a record exactly when the (trimmed) text of
    the work-item link matches
    [<word-token><whitespace><digits>:<optional-whitespace><free-text>];
    the record's id is the digit run and its title the trimmed free text;
    otherwise, and when the dialog has no such link, it returns no match.
    ["Bug 4821: Crash on save"] gives id ["4821"] and title
    ["Crash on save"]; ["Malformed line"] gives no match. *)
Theorem extractor_matches_pattern (linkText : jsstring) :
  (forall wi,
     workItemOfLinkText linkText = Some wi
     <-> exists free,
           matchesPattern (trim linkText) (id wi) free
           /\ title wi = trim free)
  /\ (workItemOfLinkText linkText = None
      <-> forall digits free, ~ matchesPattern (trim linkText) digits free)
  /\ (forall dialog wi,
        getWorkItemFromDialog dialog = Some wi
        <-> exists anchors link free,
              extensionsRegion dialog = Some anchors
              /\ queryWorkItemLink anchors = Some link
              /\ matchesPattern (trim (textContent link)) (id wi) free
              /\ title wi = trim free)
  /\ workItemOfLinkText (str "Bug 4821: Crash on save")
     = Some {| id := str "4821"; title := str "Crash on save" |}
  /\ workItemOfLinkText (str "Malformed line") = None.
Proof.
  assert (Hsome : forall text wi,
            workItemOfLinkText text = Some wi
            <-> exists free,
                  matchesPattern (trim text) (id wi) free
                  /\ title wi = trim free).
  { intros text wi. unfold workItemOfLinkText. split.
    - destruct (matchLinkText (trim text)) as [[g1 g2]|] eqn:E;
        [|discriminate].
      intros [= <-]. exists g2. split; [|reflexivity].
      apply matchLinkText_sound. exact E.
    - intros (free & Hm & Ht).
      destruct (matchLinkText (trim text)) as [[g1 g2]|] eqn:E.
      + apply matchLinkText_sound in E.
        destruct (matchesPattern_unique _ _ _ _ _ E Hm) as [-> ->].
        destruct wi as [i t]. simpl in *. subst t. reflexivity.
      + destruct (matchLinkText_complete _ _ _ Hm E). }
  split; [apply Hsome|].
  split; [|split; [|split; vm_compute; reflexivity]].
  - unfold workItemOfLinkText. split.
    + destruct (matchLinkText (trim linkText)) as [[g1 g2]|] eqn:E;
        [discriminate|].
      intros _ digits free Hm. destruct (matchLinkText_complete _ _ _ Hm E).
    + intros Hno.
      destruct (matchLinkText (trim linkText)) as [[g1 g2]|] eqn:E;
        [|reflexivity].
      apply matchLinkText_sound in E. destruct (Hno _ _ E).
  - intros dialog wi. unfold getWorkItemFromDialog. split.
    + destruct (extensionsRegion dialog) as [anchors|]; [|discriminate].
      destruct (queryWorkItemLink anchors) as [link|] eqn:El; [|discriminate].
      intros H. apply Hsome in H. destruct H as (free & Hm & Ht).
      exists anchors, link, free.
      split; [reflexivity|]. split; [exact El|]. split; assumption.
    + intros (anchors & link & free & -> & -> & Hm & Ht).
      apply Hsome. exists free. split; assumption.
Qed.

Lemma extractor_matches_pattern_witness :
  workItemOfLinkText (str "  Bug 4821:  Crash on save ")
  = Some {| id := str "4821"; title := str "Crash on save" |}.
Proof.
  apply (proj1 (extractor_matches_pattern (str "  Bug 4821:  Crash on save "))).
  exists (str " Crash on save"). split; [|reflexivity].
  exists (str "Bug"), (str " "), (str " ").
  split; [reflexivity|].
  repeat split; try discriminate;
    repeat (constructor; try reflexivity).
Defined.

(** A line terminator inside the free text: no match. *)
Example extractor_line_terminator :
  workItemOfLinkText (str "Bug 1: a" ++ [10] ++ str "b") = None.
Proof. vm_compute. reflexivity. Qed.

(** ** The waiter *)

Lemma getWorkItemFromDialog_region d :
  getWorkItemFromDialog d = workItemIn (extensionsRegion d).
Proof. reflexivity. Qed.

Lemma step_no_waiter p e p' :
  waiter p = None -> step p e = Some p' ->
  waiter p' = None /\ calls p' = calls p.
Proof.
  intros Hw. destruct e; simpl; rewrite ?Hw; intros [= <-]; simpl; auto.
Qed.

Lemma run_no_waiter es : forall p p',
  waiter p = None -> run p es = Some p' ->
  waiter p' = None /\ calls p' = calls p.
Proof.
  induction es as [|e es IH]; simpl; intros p p' Hw.
  - intros [= <-]. auto.
  - destruct (step p e) as [q|] eqn:E; [|discriminate]. intros H.
    destruct (step_no_waiter _ _ _ Hw E) as [Hq Hc].
    destruct (IH _ _ Hq H) as [? ?]. split; congruence.
Qed.

(** With the flag set the observer's callback does nothing. *)
Lemma observerCallback_settled p w :
  settled w = true -> observerCallback p w = p.
Proof. unfold observerCallback. intros ->. reflexivity. Qed.

Lemma timeoutCallback_settled p w :
  settled w = true -> timeoutCallback p w = p.
Proof. unfold timeoutCallback. intros ->. reflexivity. Qed.

(** A task on a settled page: no call of [fillBranchName], the flag stays,
    the observer stays as it is, the timer can only run off. *)
Lemma step_settled p w e p' :
  waiter p = Some w -> settled w = true -> step p e = Some p' ->
  calls p' = calls p
  /\ exists w', waiter p' = Some w' /\ settled w' = true
                /\ observing w' = observing w
                /\ (timer w' = timer w \/ (e = TimerTask /\ timer w' = None)).
Proof.
  intros Hw Hs.
  assert (Hsame : calls p = calls p
            /\ exists w', Some w = Some w' /\ settled w' = true
                          /\ observing w' = observing w
                          /\ (timer w' = timer w
                              \/ (e = TimerTask /\ timer w' = None))).
  { split; [reflexivity|]. exists w. auto. }
  destruct e; simpl; rewrite ?Hw.
  - destruct (observing w) eqn:Eo;
      [rewrite observerCallback_settled by exact Hs|];
      intros [= <-]; simpl; rewrite ?Hw; exact Hsame.
  - intros [= <-]; simpl; rewrite ?Hw; exact Hsame.
  - intros [= <-]; simpl; rewrite ?Hw; exact Hsame.
  - intros [= <-]; simpl; rewrite ?Hw; exact Hsame.
  - clear Hsame. destruct (timer w) as [due|]; [|discriminate].
    destruct (due <=? clock p); [|discriminate].
    rewrite timeoutCallback_settled by exact Hs.
    intros [= <-]; simpl. split; [reflexivity|].
    eexists. split; [reflexivity|]. simpl. auto.
Qed.

Lemma run_settled es : forall p w p',
  waiter p = Some w -> settled w = true -> run p es = Some p' ->
  calls p' = calls p
  /\ exists w', waiter p' = Some w' /\ settled w' = true
                /\ observing w' = observing w.
Proof.
  induction es as [|e es IH]; simpl; intros p w p' Hw Hs.
  - intros [= <-]. eauto.
  - destruct (step p e) as [q|] eqn:E; [|discriminate]. intros H.
    destruct (step_settled _ _ _ _ Hw Hs E) as (Hc & w1 & Hw1 & Hs1 & Ho1 & _).
    destruct (IH _ _ _ Hw1 Hs1 H) as (Hc' & w2 & Hw2 & Hs2 & Ho2).
    split; [congruence|]. exists w2. repeat split; congruence.
Qed.

(** A task on a page that still waits: the page keeps waiting and nothing
    was filled, or the task settled the episode: the observer's callback
    with one call of [fillBranchName], or the timer's callback with none. *)
Lemma step_waiting p w e p' :
  waiter p = Some w -> settled w = false -> observing w = true ->
  step p e = Some p' ->
  exists w', waiter p' = Some w'
    /\ ((settled w' = false /\ observing w' = true /\ timer w' = timer w
         /\ calls p' = calls p /\ isTimerTask e = false)
        \/ (settled w' = true /\ observing w' = false /\ timer w' = timer w
            /\ (exists wi, calls p' = calls p ++ [wi])
            /\ quiet e = false)
        \/ (settled w' = true /\ observing w' = false /\ timer w' = None
            /\ calls p' = calls p /\ e = TimerTask
            /\ exists due, timer w = Some due /\ due <= clock p)).
Proof.
  intros Hw Hs Ho. destruct e; simpl; rewrite ?Hw.
  - rewrite Ho. unfold observerCallback. rewrite Hs.
    rewrite getWorkItemFromDialog_region. simpl.
    unfold quiet. simpl.
    destruct (workItemIn r) as [wi|]; intros [= <-]; simpl.
    + eexists. split; [reflexivity|]. right. left. simpl. eauto 8.
    + exists w. split; [exact Hw|]. left. auto.
  - intros [= <-]. exists w. simpl. split; [exact Hw|]. left. auto.
  - intros [= <-]. exists w. simpl. split; [exact Hw|]. left. auto.
  - intros [= <-]. exists w. simpl. split; [exact Hw|]. left. auto.
  - destruct (timer w) as [due|] eqn:Et; [|discriminate].
    destruct (N.leb_spec due (clock p)); [|discriminate].
    unfold timeoutCallback. simpl. rewrite Hs. simpl.
    intros [= <-]. simpl. eexists. split; [reflexivity|].
    right. right. simpl. eauto 8.
Qed.

Lemma step_clock p e p' : step p e = Some p' -> clock p <= clock p'.
Proof.
  destruct e; simpl.
  - destruct (waiter p) as [w|]; [destruct (observing w)|];
      intros [= <-]; [|simpl; lia..].
    unfold observerCallback. destruct (settled w); [simpl; lia|].
    destruct (getWorkItemFromDialog _); simpl; lia.
  - intros [= <-]. simpl. lia.
  - intros [= <-]. simpl. lia.
  - intros [= <-]. simpl. lia.
  - destruct (waiter p) as [w|]; [|discriminate].
    destruct (timer w); [|discriminate].
    destruct (_ <=? _); [|discriminate].
    intros [= <-]. unfold timeoutCallback. simpl.
    destruct (settled w); simpl; lia.
Qed.

Lemma run_clock es : forall p p', run p es = Some p' -> clock p <= clock p'.
Proof.
  induction es as [|e es IH]; simpl; intros p p'.
  - intros [= <-]. lia.
  - destruct (step p e) as [q|] eqn:E; [|discriminate]. intros H.
    apply step_clock in E. apply IH in H. lia.
Qed.

(** The timer is never cancelled: it goes away by running, and only so. *)
Lemma step_timer p w e p' :
  waiter p = Some w -> step p e = Some p' ->
  exists w', waiter p' = Some w'
    /\ if isTimerTask e
       then timer w' = None /\ exists due, timer w = Some due /\ due <= clock p
       else timer w' = timer w.
Proof.
  intros Hw. destruct e; simpl; rewrite ?Hw.
  - destruct (observing w); intros [= <-]; [|exists w; auto].
    unfold observerCallback. destruct (settled w); [exists w; auto|].
    destruct (getWorkItemFromDialog _); simpl; [|exists w; auto].
    eexists. split; reflexivity.
  - intros [= <-]. exists w. auto.
  - intros [= <-]. exists w. auto.
  - intros [= <-]. exists w. auto.
  - destruct (timer w) as [due|]; [|discriminate].
    destruct (N.leb_spec due (clock p)); [|discriminate].
    intros [= <-]. unfold timeoutCallback. simpl.
    destruct (settled w); simpl; eexists; (split; [reflexivity|]); simpl; eauto.
Qed.

Lemma run_timer es : forall p w p',
  waiter p = Some w -> run p es = Some p' ->
  exists w', waiter p' = Some w'
    /\ (timer w' = None <-> timer w = None \/ existsb isTimerTask es = true)
    /\ (timer w' = None \/ timer w' = timer w).
Proof.
  induction es as [|e es IH]; simpl; intros p w p' Hw.
  - intros [= <-]. exists w. split; [exact Hw|]. split; [|auto].
    split; [auto|]. intros [H|H]; [exact H|discriminate].
  - destruct (step p e) as [q|] eqn:E; [|discriminate]. intros H.
    destruct (step_timer _ _ _ _ Hw E) as (w1 & Hw1 & Ht).
    destruct (IH _ _ _ Hw1 H) as (w2 & Hw2 & Hiff & Hor).
    exists w2. split; [exact Hw2|].
    destruct (isTimerTask e); simpl.
    + destruct Ht as [Ht _]. split; [|left; apply Hiff; auto].
      split; [auto|]. intros _. apply Hiff. auto.
    + rewrite Ht in Hiff, Hor. auto.
Qed.

(** An episode that waits: the flag and the subscription flip together, and
    [fillBranchName] is called at most once, by the task that sets the flag. *)
Lemma run_waiting es : forall p w p',
  waiter p = Some w -> settled w = false -> observing w = true ->
  run p es = Some p' ->
  exists w' l, waiter p' = Some w'
    /\ settled w' = negb (observing w')
    /\ calls p' = calls p ++ l /\ (List.length l <= 1)%nat
    /\ (settled w' = false -> l = []).
Proof.
  induction es as [|e es IH]; simpl; intros p w p' Hw Hs Ho.
  - intros [= <-]. exists w, []. rewrite Hs, Ho, app_nil_r.
    repeat split; simpl; auto.
  - destruct (step p e) as [q|] eqn:E; [|discriminate]. intros H.
    destruct (step_waiting _ _ _ _ Hw Hs Ho E)
      as (w1 & Hw1 & [(Hs1 & Ho1 & _ & Hc1 & _)
                     |[(Hs1 & Ho1 & _ & [wi Hc1] & _)
                      |(Hs1 & Ho1 & _ & Hc1 & _)]]).
    + destruct (IH _ _ _ Hw1 Hs1 Ho1 H) as (w2 & l & ? & ? & Hc & ? & ?).
      exists w2, l. rewrite Hc, Hc1. repeat split; auto.
    + destruct (run_settled _ _ _ _ Hw1 Hs1 H) as (Hc & w2 & Hw2 & Hs2 & Ho2).
      exists w2, [wi]. rewrite Hs2, Ho2, Ho1, Hc, Hc1.
      repeat split; simpl; auto. discriminate.
    + destruct (run_settled _ _ _ _ Hw1 Hs1 H) as (Hc & w2 & Hw2 & Hs2 & Ho2).
      exists w2, []. rewrite Hs2, Ho2, Ho1, Hc, Hc1, app_nil_r.
      repeat split; simpl; auto.
Qed.

(** An episode whose region never holds extractable content: it waits with
    both registrations until the timer's callback runs, which is not before
    the timer is due, and [fillBranchName] is never called. *)
Lemma run_quiet es : forall p w due p',
  waiter p = Some w -> settled w = false -> observing w = true ->
  timer w = Some due ->
  forallb quiet es = true ->
  run p es = Some p' ->
  calls p' = calls p
  /\ exists w', waiter p' = Some w'
       /\ ((settled w' = false /\ observing w' = true /\ timer w' = Some due
            /\ existsb isTimerTask es = false)
           \/ (settled w' = true /\ observing w' = false /\ timer w' = None
               /\ existsb isTimerTask es = true /\ due <= clock p')).
Proof.
  induction es as [|e es IH]; simpl; intros p w due p' Hw Hs Ho Ht Hq.
  - intros [= <-]. split; [reflexivity|]. exists w. split; [exact Hw|].
    left. auto.
  - apply andb_true_iff in Hq. destruct Hq as [Hqe Hq].
    destruct (step p e) as [q|] eqn:E; [|discriminate]. intros H.
    destruct (step_waiting _ _ _ _ Hw Hs Ho E)
      as (w1 & Hw1 & [(Hs1 & Ho1 & Ht1 & Hc1 & He)
                     |[(_ & _ & _ & _ & Hne)
                      |(Hs1 & Ho1 & Ht1 & Hc1 & -> & due' & Hd & Hle)]]).
    + rewrite Ht in Ht1.
      destruct (IH _ _ _ _ Hw1 Hs1 Ho1 Ht1 Hq H) as (Hc & w2 & Hw2 & Hcase).
      split; [congruence|]. exists w2. split; [exact Hw2|].
      rewrite He. exact Hcase.
    + congruence.
    + destruct (run_settled _ _ _ _ Hw1 Hs1 H) as (Hc & w2 & Hw2 & Hs2 & Ho2).
      destruct (run_timer _ _ _ _ Hw1 H) as (w3 & Hw3 & Hiff & _).
      rewrite Hw2 in Hw3. injection Hw3 as <-.
      split; [congruence|]. exists w2. split; [exact Hw2|]. right.
      repeat split; [exact Hs2|congruence|apply Hiff; auto|].
      apply run_clock in H. simpl in E. rewrite Hw, Ht in E.
      destruct (N.leb_spec due (clock p)); [|discriminate].
      injection E as <-. unfold timeoutCallback in H. simpl in H.
      rewrite Hs in H. simpl in H. lia.
Qed.

Lemma step_timerTask_settles p p' :
  step p TimerTask = Some p' ->
  exists w', waiter p' = Some w' /\ settled w' = true.
Proof.
  simpl. destruct (waiter p) as [w|]; [|discriminate].
  destruct (timer w); [|discriminate].
  destruct (_ <=? _); [|discriminate].
  intros [= <-]. unfold timeoutCallback. simpl.
  destruct (settled w) eqn:Es; simpl; eexists; (split; [reflexivity|]); auto.
Qed.

Lemma run_timerTask_settled es : forall p w p',
  waiter p = Some w -> run p es = Some p' ->
  existsb isTimerTask es = true ->
  exists w', waiter p' = Some w' /\ settled w' = true.
Proof.
  induction es as [|e es IH]; simpl; intros p w p' Hw; [discriminate|].
  destruct (step p e) as [q|] eqn:E; [|discriminate]. intros H Hex.
  destruct (step_timer _ _ _ _ Hw E) as (w1 & Hw1 & _).
  destruct (isTimerTask e) eqn:Ee.
  - destruct e; try discriminate.
    destruct (step_timerTask_settles _ _ E) as (w2 & Hw2 & Hs2).
    destruct (run_settled _ _ _ _ Hw2 Hs2 H) as (_ & w3 & ? & ? & _). eauto.
  - eapply IH; eauto.
Qed.

Lemma waitForWorkItem_found p wi :
  workItemIn (region p) = Some wi -> waitForWorkItem p = callFillBranchName p wi.
Proof.
  unfold waitForWorkItem. rewrite getWorkItemFromDialog_region. simpl.
  intros ->. reflexivity.
Qed.

Lemma waitForWorkItem_waits p :
  workItemIn (region p) = None ->
  waitForWorkItem p
  = setWaiter p (Some {| settled := false; observing := true;
                         timer := Some (clock p + TIMEOUT_MS) |}).
Proof.
  unfold waitForWorkItem. rewrite getWorkItemFromDialog_region. simpl.
  intros ->. reflexivity.
Qed.

(** C1: in an episode of [waitForWorkItem] the success path
    ([fillBranchName]) runs at most once; once the flag [settled] is set, no
    later task calls it (the observer's callback is a no-op); and when the
    region never holds extractable content the episode is settled by the
    timer's callback only, which runs at or after the timeout of 10000 ms,
    and [fillBranchName] is never called. *)
Theorem waiter_resolves_at_most_once
  (p0 : Page) (es : list Event) (p : Page) :
  waiter p0 = None ->
  run (waitForWorkItem p0) es = Some p ->
  (exists l, calls p = calls p0 ++ l /\ (List.length l <= 1)%nat)
  /\ (forall w, waiter p = Some w -> settled w = true ->
        observerCallback p w = p
        /\ forall es' p', run p es' = Some p' ->
             calls p' = calls p
             /\ exists w', waiter p' = Some w' /\ settled w' = true)
  /\ (workItemIn (region p0) = None -> forallb quiet es = true ->
        TIMEOUT_MS = 10000
        /\ calls p = calls p0
        /\ exists w, waiter p = Some w
             /\ ((settled w = false /\ observing w = true
                  /\ timer w = Some (clock p0 + TIMEOUT_MS)
                  /\ existsb isTimerTask es = false
                  /\ (clock p0 + TIMEOUT_MS <= clock p ->
                      exists p' w',
                        step p TimerTask = Some p' /\ waiter p' = Some w'
                        /\ settled w' = true /\ calls p' = calls p0))
                 \/ (settled w = true /\ observing w = false
                     /\ timer w = None
                     /\ existsb isTimerTask es = true
                     /\ clock p0 + TIMEOUT_MS <= clock p))).
Proof.
  intros H0 Hrun. split; [|split].
  - destruct (workItemIn (region p0)) as [wi|] eqn:Ewi.
    + rewrite (waitForWorkItem_found _ _ Ewi) in Hrun.
      apply run_no_waiter in Hrun; [|exact H0]. destruct Hrun as [_ Hc].
      exists [wi]. split; [exact Hc|]. simpl. lia.
    + rewrite (waitForWorkItem_waits _ Ewi) in Hrun.
      eapply run_waiting in Hrun; [|reflexivity..].
      destruct Hrun as (w' & l & _ & _ & Hc & Hl & _). eauto.
  - intros w Hw Hs. split; [apply observerCallback_settled, Hs|].
    intros es' p' H'.
    destruct (run_settled _ _ _ _ Hw Hs H') as (Hc & w' & Hw' & Hs' & _).
    eauto.
  - intros Ewi Hq. split; [reflexivity|].
    rewrite (waitForWorkItem_waits _ Ewi) in Hrun.
    eapply run_quiet in Hrun; [|reflexivity..|exact Hq].
    destruct Hrun as (Hc & w & Hw & Hcase). split; [exact Hc|].
    exists w. split; [exact Hw|].
    destruct Hcase as [(Hs & Ho & Ht & Hex)|Hcase]; [left|right; exact Hcase].
    repeat split; try assumption.
    intros Hle. simpl. rewrite Hw, Ht.
    destruct (N.leb_spec (clock p0 + TIMEOUT_MS) (clock p)); [|simpl in *; lia].
    unfold timeoutCallback. simpl. rewrite Hs. simpl.
    eexists. eexists. split; [reflexivity|]. simpl. auto.
Qed.

Lemma waiter_resolves_at_most_once_witness :
  waiter page0 = None
  /\ workItemIn (region page0) = None
  /\ forallb quiet quietEpisode = true
  /\ exists p,
       run (waitForWorkItem page0) quietEpisode = Some p
       /\ calls p = calls page0
       /\ exists l, calls p = calls page0 ++ l /\ (List.length l <= 1)%nat.
Proof.
  repeat (split; [reflexivity|]).
  eexists. split; [vm_compute; reflexivity|].
  pose proof (waiter_resolves_at_most_once page0 quietEpisode _
                eq_refl eq_refl) as (Honce & _ & Hquiet).
  split; [exact (proj1 (proj2 (Hquiet eq_refl eq_refl)))|exact Honce].
Defined.

(** C2 as stated fails: after the observer's callback settled the episode
    (the link arrives at once), the subscription is gone but the timer is
    still pending, and its callback is run when the timer is due. *)
Lemma timer_pending_after_settlement :
  option_map waiter
    (run (waitForWorkItem page0) [RegionMutation (Some [link100])])
  = Some (Some {| settled := true; observing := false;
                  timer := Some 10000 |})
  /\ option_map waiter
       (run (waitForWorkItem page0)
          [RegionMutation (Some [link100]); Elapse 10000; TimerTask])
     = Some (Some {| settled := true; observing := false; timer := None |}).
Proof. split; vm_compute; reflexivity. Qed.

(** C2, amended: the task that sets the flag [settled] disconnects the
    subscription (the flag is set exactly when the observer is
    disconnected), so no observer callback runs after settlement.  The timer
    is never cancelled: it goes away only by running, once, when due; when it
    runs after a settlement by extraction it changes nothing else, and when
    it has run the episode is settled.  When the content is there at the
    start, nothing is registered. *)
Theorem settlement_disconnects_observer
  (p0 : Page) (es : list Event) (p : Page) :
  waiter p0 = None ->
  run (waitForWorkItem p0) es = Some p ->
  match waiter p with
  | None => workItemIn (region p0) <> None
  | Some w =>
      workItemIn (region p0) = None
      /\ settled w = negb (observing w)
      /\ (timer w = None <-> existsb isTimerTask es = true)
      /\ (timer w = None \/ timer w = Some (clock p0 + TIMEOUT_MS))
      /\ (timer w = None -> settled w = true)
      /\ (settled w = true ->
          (forall r, step p (RegionMutation r) = Some (setRegion p r))
          /\ (forall p', step p TimerTask = Some p' ->
                p' = setWaiter p (Some {| settled := true; observing := false;
                                          timer := None |})))
  end.
Proof.
  intros H0 Hrun.
  destruct (workItemIn (region p0)) as [wi|] eqn:Ewi.
  - rewrite (waitForWorkItem_found _ _ Ewi) in Hrun.
    apply run_no_waiter in Hrun; [|exact H0]. destruct Hrun as [-> _].
    discriminate.
  - rewrite (waitForWorkItem_waits _ Ewi) in Hrun.
    set (W := {| settled := false; observing := true;
                 timer := Some (clock p0 + TIMEOUT_MS) |}) in *.
    assert (HW : waiter (setWaiter p0 (Some W)) = Some W) by reflexivity.
    destruct (run_waiting _ _ _ _ HW eq_refl eq_refl Hrun)
      as (w & l & Hw & Hso & _).
    destruct (run_timer _ _ _ _ HW Hrun) as (w' & Hw' & Hiff & Hor).
    rewrite Hw in Hw'. injection Hw' as <-. rewrite Hw. simpl in Hiff, Hor.
    split; [reflexivity|]. split; [exact Hso|].
    split; [|split; [exact Hor|split]].
    + split; [intros Ht; apply Hiff in Ht; destruct Ht; [discriminate|auto]
             |intros Ht; apply Hiff; auto].
    + intros Ht. apply Hiff in Ht. destruct Ht as [Ht|Ht]; [discriminate|].
      destruct (run_timerTask_settled _ _ _ _ HW Hrun Ht)
        as (w' & Hw' & Hs'). congruence.
    + intros Hs. rewrite Hs in Hso. symmetry in Hso.
      apply negb_true_iff in Hso. split.
      * intros r. simpl. rewrite Hw, Hso. reflexivity.
      * intros p'. simpl. rewrite Hw.
        destruct (timer w); [|discriminate].
        destruct (_ <=? _); [|discriminate].
        unfold timeoutCallback. simpl. rewrite Hs. simpl.
        intros [= <-]. unfold setWaiter. simpl. rewrite Hso. reflexivity.
Qed.

Lemma settlement_disconnects_observer_witness :
  waiter page0 = None
  /\ exists p w,
       run (waitForWorkItem page0) [RegionMutation (Some [link100])] = Some p
       /\ waiter p = Some w
       /\ settled w = negb (observing w)
       /\ (timer w = None \/ timer w = Some (clock page0 + TIMEOUT_MS)).
Proof.
  split; [reflexivity|].
  pose proof (settlement_disconnects_observer page0
                [RegionMutation (Some [link100])] _ eq_refl eq_refl) as H.
  eexists. eexists. split; [vm_compute; reflexivity|].
  split; [reflexivity|].
  exact (conj (proj1 (proj2 H)) (proj1 (proj2 (proj2 (proj2 H))))).
Defined.

(** C7: when the dialog already holds matching content as [waitForWorkItem]
    starts, [fillBranchName] is called in that same call, and neither a
    subscription nor a timer is created: no timer task can run, a later
    mutation runs no callback, and no later task calls [fillBranchName]. *)
Theorem waiter_settles_immediately (p0 : Page) (wi : WorkItem) :
  waiter p0 = None ->
  getWorkItemFromDialog (dialogOf p0) = Some wi ->
  waitForWorkItem p0 = callFillBranchName p0 wi
  /\ branchInput (waitForWorkItem p0) = fillBranchName (branchInput p0) wi
  /\ calls (waitForWorkItem p0) = calls p0 ++ [wi]
  /\ (isEmpty (trim (value (branchInput p0))) = true ->
      value (branchInput (waitForWorkItem p0))
      = buildBranchName (id wi) (title wi))
  /\ waiter (waitForWorkItem p0) = None
  /\ step (waitForWorkItem p0) TimerTask = None
  /\ (forall r, step (waitForWorkItem p0) (RegionMutation r)
                = Some (setRegion (waitForWorkItem p0) r))
  /\ (forall es p, run (waitForWorkItem p0) es = Some p ->
        waiter p = None /\ calls p = calls p0 ++ [wi]).
Proof.
  intros H0 Hwi. rewrite getWorkItemFromDialog_region in Hwi. simpl in Hwi.
  rewrite (waitForWorkItem_found _ _ Hwi).
  split; [reflexivity|]. split; [reflexivity|]. split; [reflexivity|].
  split; [intros He; simpl; apply fillBranchName_value, He|].
  split; [exact H0|].
  split; [simpl; rewrite H0; reflexivity|].
  split; [intros r; simpl; rewrite H0; reflexivity|].
  intros es p Hrun. apply run_no_waiter in Hrun; [|exact H0]. exact Hrun.
Qed.

Lemma waiter_settles_immediately_witness :
  waiter page4821 = None
  /\ getWorkItemFromDialog (dialogOf page4821) = Some bug4821
  /\ value (branchInput (waitForWorkItem page4821))
     = str "feature/4821-Crash-On-Save"
  /\ waiter (waitForWorkItem page4821) = None.
Proof.
  split; [reflexivity|]. split; [reflexivity|].
  pose proof (waiter_settles_immediately page4821 bug4821 eq_refl eq_refl)
    as (_ & _ & _ & Hv & Hw & _).
  split; [exact (Hv eq_refl)|exact Hw].
Defined.

Lemma workItem_task100 :
  workItemOfLinkText (str "Task 100: Add login page") = Some task100.
Proof. vm_compute. reflexivity. Qed.

Lemma branchName_task100 :
  buildBranchName (str "100") (str "Add login page")
  = str "feature/100-Add-Login-Page".
Proof. vm_compute. reflexivity. Qed.

(** C5: a dialog whose sub-region is empty and whose field is blank; the
    sub-region then gains a work-item link with the text
    ["Task 100: Add login page"]: the field holds
    ["feature/100-Add-Login-Page"], is focused and selected, and a later
    mutation of the region, whatever it brings, leaves the field as it is. *)
Theorem end_to_end_scenario
  (input : HTMLInputElement) (linkHref : jsstring) (now dt : N)
  (r2 : option (list Anchor)) :
  isEmpty (trim (value input)) = true ->
  includes linkHref (str "_workitems/edit/") = true ->
  buildBranchName (str "100") (str "Add login page")
  = str "feature/100-Add-Login-Page"
  /\ exists p1 p2 p3,
       handleBranchDialog
         {| itemNameInput := Some input; extensionsRegion := Some [] |} now
       = Some p1
       /\ branchInput p1 = input /\ calls p1 = []
       /\ run p1
            [Elapse dt;
             RegionMutation
               (Some [{| href := linkHref;
                         textContent := str "Task 100: Add login page" |}])]
          = Some p2
       /\ value (branchInput p2) = str "feature/100-Add-Login-Page"
       /\ focused (branchInput p2) = true
       /\ selected (branchInput p2) = true
       /\ dispatched (branchInput p2)
          = dispatched input ++ ["input"%string; "change"%string]
       /\ calls p2 = [task100]
       /\ run p2 [RegionMutation r2] = Some p3
       /\ branchInput p3 = branchInput p2
       /\ calls p3 = calls p2.
Proof.
  intros Hblank Hhref. split; [exact branchName_task100|].
  set (link := {| href := linkHref;
                  textContent := str "Task 100: Add login page" |}).
  assert (Hwi : workItemIn (Some [link]) = Some task100).
  { unfold workItemIn, getWorkItemFromDialog, queryWorkItemLink. simpl.
    rewrite Hhref. exact workItem_task100. }
  set (W := {| settled := false; observing := true;
               timer := Some (now + TIMEOUT_MS) |}).
  set (W' := {| settled := true; observing := false;
                timer := Some (now + TIMEOUT_MS) |}).
  set (filled := fillBranchName input task100).
  exists {| region := Some []; branchInput := input; clock := now;
            waiter := Some W; calls := [] |}.
  exists {| region := Some [link]; branchInput := filled; clock := now + dt;
            waiter := Some W'; calls := [task100] |}.
  exists {| region := r2; branchInput := filled; clock := now + dt;
            waiter := Some W'; calls := [task100] |}.
  assert (Hfilled : filled
                    = select (focus (addCopyButton
                        (setInputValue input
                           (buildBranchName (id task100) (title task100)))))).
  { unfold filled, fillBranchName. rewrite Hblank. reflexivity. }
  split.
  { unfold handleBranchDialog. simpl. rewrite Hblank. reflexivity. }
  split; [reflexivity|]. split; [reflexivity|].
  split.
  { unfold run, step. simpl. unfold observerCallback. simpl.
    rewrite getWorkItemFromDialog_region. simpl extensionsRegion.
    rewrite Hwi. reflexivity. }
  split; [rewrite Hfilled; exact branchName_task100|].
  split; [rewrite Hfilled; reflexivity|].
  split; [rewrite Hfilled; reflexivity|].
  split; [rewrite Hfilled; reflexivity|].
  split; [reflexivity|].
  split; [reflexivity|].
  split; reflexivity.
Qed.

Lemma end_to_end_scenario_witness :
  isEmpty (trim (value emptyInput)) = true
  /\ includes (href link100) (str "_workitems/edit/") = true
  /\ exists p2,
       option_map (fun p1 => run p1 [Elapse 250; RegionMutation (Some [link100])])
         (handleBranchDialog
            {| itemNameInput := Some emptyInput; extensionsRegion := Some [] |}
            100)
       = Some (Some p2)
       /\ value (branchInput p2) = str "feature/100-Add-Login-Page"
       /\ run p2 [RegionMutation (Some [link100; link4821])]
          = Some (setRegion p2 (Some [link100; link4821])).
Proof.
  split; [reflexivity|]. split; [reflexivity|].
  destruct (end_to_end_scenario emptyInput (href link100) 100 250
              (Some [link100; link4821]) eq_refl eq_refl)
    as (_ & p1 & p2 & p3 & H1 & _ & _ & H2 & Hv & _).
  exists p2. rewrite H1. simpl option_map.
  split; [f_equal; exact H2|]. split; [exact Hv|].
  vm_compute in H1. injection H1 as <-.
  vm_compute in H2. injection H2 as <-.
  vm_compute. reflexivity.
Defined.

(** * Further properties *)

(** ** The formatter in one pass *)

Lemma push_app w ws ws' : push w ws ++ ws' = push w (ws ++ ws').
Proof. unfold push. destruct (isEmpty w); reflexivity. Qed.

Lemma filter_Boolean_cons w ws :
  List.filter Boolean (w :: ws) = push w (List.filter Boolean ws).
Proof. destruct w; reflexivity. Qed.

Section Scan.

Variable cls : char -> CharClass.

Lemma scan_cons c s : scan cls (c :: s) = scanStep cls c (scan cls s).
Proof. reflexivity. Qed.

Lemma scan_app a b :
  scan cls (a ++ b) = fold_right (scanStep cls) (scan cls b) a.
Proof. unfold scan. apply fold_right_app. Qed.

(** The pass over the front of a string, given the words of its back. *)
Lemma scan_front a : forall ws,
  fold_right (scanStep cls) ([], ws) a
  = (fst (scan cls a), snd (scan cls a) ++ ws).
Proof.
  induction a as [|c a IH]; intros ws; [reflexivity|].
  simpl. rewrite IH. change (fold_right (scanStep cls) ([], []) a)
    with (scan cls a).
  unfold scanStep. destruct (cls c); simpl; [reflexivity| |reflexivity].
  rewrite push_app. reflexivity.
Qed.

Lemma scan_breaks sp :
  Forall (fun c => cls c = Break) sp -> scan cls sp = ([], []).
Proof.
  induction 1 as [|c sp Hc _ IH]; [reflexivity|].
  rewrite scan_cons, IH. unfold scanStep. rewrite Hc. reflexivity.
Qed.

Lemma wordsOf_break_cons c s :
  cls c = Break -> wordsOf cls (c :: s) = wordsOf cls s.
Proof.
  intros Hc. unfold wordsOf. rewrite scan_cons. unfold scanStep.
  rewrite Hc. reflexivity.
Qed.

(** Cutting at a code unit: the words before it, then the words after it. *)
Lemma wordsOf_break a c b :
  cls c = Break -> wordsOf cls (a ++ c :: b) = wordsOf cls a ++ wordsOf cls b.
Proof.
  intros Hc. unfold wordsOf at 1. rewrite scan_app, scan_cons.
  unfold scanStep at 2 4. rewrite Hc.
  change (push (fst (scan cls b)) (snd (scan cls b))) with (wordsOf cls b).
  rewrite scan_front. simpl. rewrite <- push_app. reflexivity.
Qed.

Lemma wordsOf_drop a c b :
  cls c = Drop -> wordsOf cls (a ++ c :: b) = wordsOf cls (a ++ b).
Proof.
  intros Hc. unfold wordsOf. rewrite !scan_app, scan_cons.
  unfold scanStep at 2 4. rewrite Hc. reflexivity.
Qed.

Lemma scan_keeps w :
  Forall (fun c => cls c = Keep) w -> scan cls w = (w, []).
Proof.
  induction 1 as [|c w Hc _ IH]; [reflexivity|].
  rewrite scan_cons, IH. unfold scanStep. rewrite Hc. reflexivity.
Qed.

Lemma wordsOf_trailing_breaks s sp :
  Forall (fun c => cls c = Break) sp -> wordsOf cls (s ++ sp) = wordsOf cls s.
Proof.
  intros H. unfold wordsOf. rewrite scan_app, (scan_breaks _ H). reflexivity.
Qed.

(** The kept code units, in their order, are what the words are made of. *)
Lemma scan_concat s :
  fst (scan cls s) ++ List.concat (snd (scan cls s))
  = List.filter (fun c => match cls c with Keep => true | _ => false end) s.
Proof.
  induction s as [|c s IH]; [reflexivity|].
  rewrite scan_cons. unfold scanStep. simpl. destruct (cls c); simpl.
  - rewrite IH. reflexivity.
  - unfold push. destruct (fst (scan cls s)); simpl in *; exact IH.
  - exact IH.
Qed.

Lemma concat_push w ws : List.concat (push w ws) = w ++ List.concat ws.
Proof. unfold push. destruct w; reflexivity. Qed.

End Scan.

Lemma scan_ext cls cls' s :
  (forall c, cls c = cls' c) -> scan cls s = scan cls' s.
Proof.
  intros H. induction s as [|c s IH]; [reflexivity|].
  rewrite !scan_cons, IH. unfold scanStep. rewrite H. reflexivity.
Qed.

Lemma scan_filter cls k s :
  scan cls (List.filter k s)
  = scan (fun c => if k c then cls c else Drop) s.
Proof.
  induction s as [|c s IH]; [reflexivity|].
  rewrite (scan_cons _ c s). unfold scanStep at 1. rewrite <- IH.
  simpl List.filter. destruct (k c); reflexivity.
Qed.

Lemma scan_starts_break cls s :
  startsWith (fun c => match cls c with Break => true | _ => false end) s
  = true ->
  fst (scan cls s) = [].
Proof.
  destruct s as [|c s]; [discriminate|]. simpl.
  unfold scanStep. destruct (cls c); try discriminate. reflexivity.
Qed.

(** The pass over [s.replace(/[q]+/g, x)] for a break [x] is the pass over
    [s] that also cuts at the class [q]. *)
Lemma scan_replaceRuns cls q x s :
  cls x = Break ->
  scan cls (replaceRuns q [x] s)
  = scan (fun c => if q c then Break else cls c) s.
Proof.
  intros Hx. induction s as [|c s IH]; [reflexivity|].
  simpl replaceRuns. destruct (q c) eqn:Eq.
  - destruct (startsWith q s) eqn:Es.
    + rewrite IH, scan_cons. unfold scanStep. rewrite Eq.
      assert (H : fst (scan (fun c => if q c then Break else cls c) s) = []).
      { apply scan_starts_break. destruct s as [|d s]; [discriminate|].
        simpl in *. rewrite Es. reflexivity. }
      destruct (scan _ s) as [j l]. simpl in H. subst j. reflexivity.
    + simpl app. rewrite !scan_cons, IH. unfold scanStep.
      rewrite Hx, Eq. reflexivity.
  - rewrite !scan_cons, IH. unfold scanStep. rewrite Eq. reflexivity.
Qed.

Lemma split_head_empty p s :
  startsWith p s = true -> exists t, split p s = [] :: t.
Proof.
  destruct s as [|c s]; [discriminate|]. simpl. intros Hc. rewrite Hc.
  revert c Hc. induction s as [|d s IH]; intros c Hc.
  - simpl. eauto.
  - simpl startsWith. destruct (p d) eqn:Ed; [|eauto].
    simpl split. rewrite Ed. apply (IH d Ed).
Qed.

(** [split] and then [filter(Boolean)] is the pass that cuts at the class. *)
Lemma split_scan p s :
  scan (cutAt p) s
  = (hd [] (split p s), List.filter Boolean (tl (split p s))).
Proof.
  induction s as [|c s IH]; [reflexivity|].
  rewrite scan_cons, IH. unfold scanStep, cutAt. simpl split.
  destruct (p c) eqn:Ec.
  - destruct (startsWith p s) eqn:Es.
    + destruct (split_head_empty _ _ Es) as [t ->]. reflexivity.
    + simpl. destruct (split p s) as [|h t] eqn:E.
      * destruct (split_not_nil _ _ E).
      * destruct h; reflexivity.
  - destruct (split p s) as [|h t] eqn:E.
    + destruct (split_not_nil _ _ E).
    + reflexivity.
Qed.

Lemma filter_split_wordsOf p s :
  List.filter Boolean (split p s) = wordsOf (cutAt p) s.
Proof.
  unfold wordsOf. rewrite split_scan.
  destruct (split p s) as [|h t] eqn:E; [destruct (split_not_nil _ _ E)|].
  simpl. apply filter_Boolean_cons.
Qed.

Lemma trimStart_decomp s :
  exists sp, s = sp ++ trimStart s /\ Forall (fun c => isSpace c = true) sp.
Proof.
  induction s as [|c s (sp & IH & Hsp)]; [exists []; auto|].
  simpl. destruct (isSpace c) eqn:Ec.
  - exists (c :: sp). split; [simpl; congruence|constructor; assumption].
  - exists []. auto.
Qed.

Lemma trimEnd_decomp s :
  exists sp, s = trimEnd s ++ sp /\ Forall (fun c => isSpace c = true) sp.
Proof.
  unfold trimEnd. destruct (trimStart_decomp (rev s)) as (sp & E & Hsp).
  exists (rev sp). split; [|apply Forall_rev, Hsp].
  rewrite <- rev_app_distr, <- E, rev_involutive. reflexivity.
Qed.

Lemma wordsOf_trim cls s :
  (forall c, isSpace c = true -> cls c = Break) ->
  wordsOf cls (trim s) = wordsOf cls s.
Proof.
  intros Hcls. unfold trim.
  destruct (trimEnd_decomp (trimStart s)) as (sp2 & E2 & H2).
  destruct (trimStart_decomp s) as (sp1 & E1 & H1).
  transitivity (wordsOf cls (trimStart s)).
  - rewrite E2 at 2. symmetry. apply wordsOf_trailing_breaks.
    eapply Forall_impl; [|exact H2]. exact Hcls.
  - rewrite E1 at 2. clear E1 E2.
    induction H1 as [|c sp1 Hc _ IH]; [reflexivity|].
    simpl app. rewrite wordsOf_break_cons by (apply Hcls, Hc). exact IH.
Qed.

Lemma classify_alt c :
  (if isSeparatorPunct c then Break
   else if isKept c
        then (if isSpace c then Break else cutAt isSplitter c)
        else Drop)
  = classify c.
Proof.
  unfold classify, cutAt. destruct (isSeparatorPunct c); [reflexivity|].
  destruct (isKept c); [|reflexivity].
  destruct (isSpace c) eqn:Es; [|reflexivity].
  unfold isSplitter. rewrite Es. reflexivity.
Qed.

(** The words of a title are the words of the one pass: the pipeline of
    [formatTitle] up to [filter(Boolean)] keeps the code units of
    [[a-zA-Z0-9]], cuts at separator punctuation, whitespace and hyphens,
    and deletes everything else. *)
Lemma titleWords_one_pass title : titleWords title = wordsOf classify title.
Proof.
  unfold titleWords. rewrite filter_split_wordsOf.
  rewrite wordsOf_trim.
  2:{ intros c Hc. unfold cutAt, isSplitter. rewrite Hc. reflexivity. }
  unfold wordsOf, collapseWhitespace, stripSpecial, removeOutside,
    punctuationToSpaces.
  rewrite scan_replaceRuns by reflexivity.
  rewrite scan_filter.
  rewrite scan_replaceRuns by reflexivity.
  rewrite (scan_ext _ classify); [reflexivity|].
  intros c. apply classify_alt.
Qed.

Lemma classify_Keep c : classify c = Keep <-> isAlnum c = true.
Proof.
  unfold classify.
  destruct (isAlnum c) eqn:Ea.
  - rewrite (alnum_not_punct _ Ea), (alnum_kept _ Ea),
      (alnum_not_splitter _ Ea). tauto.
  - split; [|discriminate].
    destruct (isSeparatorPunct c); [discriminate|].
    destruct (isKept c) eqn:Ek; [|discriminate].
    destruct (isSplitter c) eqn:Es; [discriminate|].
    rewrite (kept_not_splitter_alnum _ Ek Es) in Ea. discriminate.
Qed.

Lemma splitter_kept c : isSplitter c = true -> isKept c = true.
Proof. char_solve. Qed.

Lemma classify_Break c : classify c = Break <-> isBreak c = true.
Proof.
  unfold classify, isBreak.
  destruct (isSeparatorPunct c); simpl; [tauto|].
  destruct (isSplitter c) eqn:Es.
  - rewrite (splitter_kept _ Es). tauto.
  - destruct (isKept c); split; discriminate.
Qed.

Lemma classify_Drop c :
  classify c = Drop <-> isAlnum c = false /\ isBreak c = false.
Proof.
  pose proof (classify_Keep c) as HK. pose proof (classify_Break c) as HB.
  destruct (classify c); destruct (isAlnum c); destruct (isBreak c);
    intuition congruence.
Qed.

Lemma join_nil_iff sep ws :
  Forall (fun w => w <> []) ws -> (join sep ws = [] <-> ws = []).
Proof.
  intros H. split; [|intros ->; reflexivity].
  destruct H as [|w ws Hw _]; [reflexivity|].
  simpl. destruct w; [congruence|]. destruct ws; discriminate.
Qed.

Lemma join_app sep u v :
  u <> [] -> v <> [] -> join sep (u ++ v) = join sep u ++ sep ++ join sep v.
Proof.
  intros Hu Hv. induction u as [|w u IH]; [congruence|].
  destruct u as [|w' u'].
  - simpl. destruct v; [congruence|reflexivity].
  - change (join sep ((w :: w' :: u') ++ v))
      with (w ++ sep ++ join sep ((w' :: u') ++ v)).
    rewrite IH by discriminate.
    change (join sep (w :: w' :: u')) with (w ++ sep ++ join sep (w' :: u')).
    rewrite <- !app_assoc. reflexivity.
Qed.

Lemma capitalized_not_nil ws :
  Forall isCapitalizedWord ws -> Forall (fun w => w <> []) ws.
Proof. apply Forall_impl. intros w (H & _). exact H. Qed.

Lemma titleWords_alnum_word w :
  Forall (fun c => isAlnum c = true) w -> titleWords w = push w [].
Proof.
  intros H. rewrite titleWords_one_pass. unfold wordsOf.
  rewrite scan_keeps; [reflexivity|].
  eapply Forall_impl; [|exact H]. intros c. apply classify_Keep.
Qed.

(** X1: [formatTitle] cuts a title at every whitespace code unit, hyphen and
    separator punctuation mark: the result is the formatted text before it
    and the formatted text after it, with one hyphen between them when both
    have words. *)
Theorem formatTitle_cuts_at_break (a b : jsstring) (c : char) :
  isBreak c = true ->
  formatTitle (a ++ c :: b) = hyphenate (formatTitle a) (formatTitle b).
Proof.
  intros Hc. unfold formatTitle, formatTitleWith.
  assert (Hw : titleWords (a ++ c :: b) = titleWords a ++ titleWords b).
  { rewrite !titleWords_one_pass. apply wordsOf_break, classify_Break, Hc. }
  rewrite Hw, map_app.
  pose proof (formatTitle_words a) as Ha.
  pose proof (formatTitle_words b) as Hb.
  fold capitalize. unfold hyphenate.
  destruct (List.map capitalize (titleWords a)) as [|wa la] eqn:Ea.
  - reflexivity.
  - destruct (List.map capitalize (titleWords b)) as [|wb lb] eqn:Eb.
    + rewrite app_nil_r.
      destruct (join [HYPHEN] (wa :: la)) eqn:Ej; reflexivity.
    + rewrite join_app by discriminate.
      destruct (join [HYPHEN] (wa :: la)) eqn:Eja.
      { apply join_nil_iff in Eja; [discriminate|].
        apply capitalized_not_nil, Ha. }
      destruct (join [HYPHEN] (wb :: lb)) eqn:Ejb.
      { apply join_nil_iff in Ejb; [discriminate|].
        apply capitalized_not_nil, Hb. }
      reflexivity.
Qed.

Lemma formatTitle_cuts_at_break_witness :
  formatTitle (str "fix login" ++ 47 :: str "logout bug")
  = str "Fix-Login-Logout-Bug".
Proof.
  etransitivity.
  - apply (formatTitle_cuts_at_break (str "fix login") (str "logout bug") 47).
    reflexivity.
  - reflexivity.
Defined.

(** X2: a code unit that is neither of [[a-zA-Z0-9]] nor a break (an
    apostrophe, a bracket, a non-ASCII letter) is deleted without ending the
    word around it. *)
Theorem formatTitle_deletes_special (a b : jsstring) (c : char) :
  isAlnum c = false -> isBreak c = false ->
  formatTitle (a ++ c :: b) = formatTitle (a ++ b).
Proof.
  intros Ha Hb. unfold formatTitle, formatTitleWith.
  rewrite !titleWords_one_pass.
  rewrite wordsOf_drop; [reflexivity|]. apply classify_Drop. auto.
Qed.

Lemma formatTitle_deletes_special_witness :
  formatTitle (str "don" ++ 39 :: str "t panic") = str "Dont-Panic".
Proof.
  etransitivity.
  - apply (formatTitle_deletes_special (str "don") (str "t panic") 39);
      reflexivity.
  - reflexivity.
Defined.

(** X3: a word of [[a-zA-Z0-9]] comes out with its first code unit in upper
    case and the rest as it was: nothing is put into lower case. *)
Theorem formatTitle_single_word (c : char) (w : jsstring) :
  Forall (fun x => isAlnum x = true) (c :: w) ->
  formatTitle (c :: w) = toUpperCaseUnit c :: w.
Proof.
  intros H. unfold formatTitle, formatTitleWith.
  rewrite titleWords_alnum_word by exact H. reflexivity.
Qed.

Lemma formatTitle_single_word_witness :
  formatTitle (str "iOS17") = str "IOS17".
Proof.
  apply (formatTitle_single_word 105 (str "OS17")).
  repeat (constructor; [reflexivity|]). constructor.
Defined.

Lemma alnum_not_hyphen c : isAlnum c = true -> isHyphen c = false.
Proof. unfold isHyphen. char_solve. Qed.

Lemma hasDoubleHyphen_word w r :
  Forall (fun c => isAlnum c = true) w ->
  hasDoubleHyphen (w ++ r) = hasDoubleHyphen r.
Proof.
  induction 1 as [|c w Hc _ IH]; [reflexivity|].
  simpl. apply alnum_not_hyphen in Hc. unfold isHyphen in Hc.
  rewrite Hc, IH. reflexivity.
Qed.

Lemma startsWith_app_word p w r :
  w <> [] -> startsWith p (w ++ r) = startsWith p w.
Proof. destruct w; [congruence|reflexivity]. Qed.

Lemma join_hyphens ws :
  Forall isCapitalizedWord ws ->
  startsWith isHyphen (join [HYPHEN] ws) = false
  /\ startsWith isHyphen (rev (join [HYPHEN] ws)) = false
  /\ hasDoubleHyphen (join [HYPHEN] ws) = false.
Proof.
  induction 1 as [|w ws (Hne & Ha & _) Hws (IH1 & IH2 & IH3)];
    [repeat split; reflexivity|].
  assert (Hw1 : startsWith isHyphen w = false).
  { destruct w as [|c w]; [congruence|]. inversion Ha; subst.
    simpl. apply alnum_not_hyphen. assumption. }
  assert (Hw2 : startsWith isHyphen (rev w) = false).
  { destruct (rev w) as [|c r] eqn:E; [reflexivity|]. simpl.
    apply alnum_not_hyphen. rewrite Forall_forall in Ha. apply Ha.
    apply in_rev. rewrite E. left. reflexivity. }
  assert (Hw3 : hasDoubleHyphen w = false).
  { rewrite <- (app_nil_r w). rewrite hasDoubleHyphen_word by exact Ha.
    reflexivity. }
  destruct ws as [|w' ws']; [simpl; auto|].
  change (join [HYPHEN] (w :: w' :: ws'))
    with (w ++ HYPHEN :: join [HYPHEN] (w' :: ws')).
  assert (Hj : join [HYPHEN] (w' :: ws') <> []).
  { intros E. apply join_nil_iff in E; [discriminate|].
    apply capitalized_not_nil, Hws. }
  remember (join [HYPHEN] (w' :: ws')) as J eqn:EJ. clear EJ.
  repeat split.
  - rewrite startsWith_app_word by exact Hne. exact Hw1.
  - rewrite rev_app_distr.
    rewrite startsWith_app_word; [|destruct J; [congruence|]].
    + change (HYPHEN :: J) with ([HYPHEN] ++ J). rewrite rev_app_distr.
      rewrite startsWith_app_word; [exact IH2|].
      intros E. apply Hj. rewrite <- (rev_involutive J), E. reflexivity.
    + simpl. intros E. apply app_eq_nil in E. destruct E. discriminate.
  - rewrite hasDoubleHyphen_word by exact Ha. simpl.
    change (fun x => x =? HYPHEN) with isHyphen.
    rewrite IH1, IH3. reflexivity.
Qed.

(** X4: the hyphens of a formatted title are separators only: the output
    never starts with a hyphen, never ends with one, and never has two in a
    row, whatever hyphens, spaces and punctuation the title has. *)
Theorem formatTitle_hyphens_separate (title : jsstring) :
  startsWith isHyphen (formatTitle title) = false
  /\ startsWith isHyphen (rev (formatTitle title)) = false
  /\ hasDoubleHyphen (formatTitle title) = false.
Proof. apply join_hyphens, formatTitle_words. Qed.

Lemma filter_filter_sub (k q : char -> bool) s :
  (forall c, k c = true -> q c = true) ->
  List.filter k (List.filter q s) = List.filter k s.
Proof.
  intros H. induction s as [|c s IH]; [reflexivity|].
  simpl. destruct (q c) eqn:Eq; simpl.
  - rewrite IH. reflexivity.
  - destruct (k c) eqn:Ek; [|exact IH].
    rewrite (H c Ek) in Eq. discriminate.
Qed.

Lemma kept_not_punct c : isKept c = true -> isSeparatorPunct c = false.
Proof. char_solve. Qed.

(** X5: the draft formatter is the final one on the title without its
    separator punctuation: the draft deletes the marks of [[/\\|:;_~+&,>]]
    where the final version cuts; on a title without such a mark the two
    agree. *)
Theorem formatTitle_draft_vs_final (title : jsstring) :
  formatTitle_draft title
  = formatTitle (List.filter (fun c => negb (isSeparatorPunct c)) title)
  /\ (forallb (fun c => negb (isSeparatorPunct c)) title = true ->
      formatTitle_draft title = formatTitle title).
Proof.
  assert (Hid : forall s,
            Forall (fun c => isSeparatorPunct c = false) s ->
            formatTitle_draft s = formatTitle s).
  { intros s Hs. unfold formatTitle, formatTitleWith, titleWords,
      punctuationToSpaces. rewrite replaceRuns_id by exact Hs. reflexivity. }
  split.
  - rewrite <- Hid.
    + unfold formatTitle_draft, stripSpecial, removeOutside.
      rewrite filter_filter_sub; [reflexivity|].
      intros c Hc. rewrite (kept_not_punct _ Hc). reflexivity.
    + apply Forall_forall. intros c Hc. apply filter_In in Hc.
      destruct Hc as [_ Hc]. apply negb_true_iff in Hc. exact Hc.
  - intros H. apply Hid. rewrite forallb_forall in H.
    apply Forall_forall. intros c Hc. apply negb_true_iff, H, Hc.
Qed.

Lemma formatTitle_draft_vs_final_witness :
  formatTitle_draft (str "Add login page") = formatTitle (str "Add login page").
Proof.
  apply (proj2 (formatTitle_draft_vs_final (str "Add login page"))).
  reflexivity.
Defined.

Lemma capitalize_length w : List.length (capitalize w) = List.length w.
Proof. destruct w; reflexivity. Qed.

Lemma join_map_length (f : jsstring -> jsstring) sep ws :
  (forall w, List.length (f w) = List.length w) ->
  List.length (join sep (List.map f ws)) = List.length (join sep ws).
Proof.
  intros Hf. induction ws as [|w ws IH]; [reflexivity|].
  destruct ws as [|w' ws']; [apply Hf|].
  change (List.length (f w ++ sep ++ join sep (List.map f (w' :: ws')))
          = List.length (w ++ sep ++ join sep (w' :: ws'))).
  rewrite !length_app, IH, Hf. reflexivity.
Qed.

Lemma join_length h ws :
  ws <> [] ->
  (S (List.length (join [h] ws))
   <= list_sum (List.map (fun w => S (List.length w)) ws))%nat.
Proof.
  induction ws as [|w ws IH]; [congruence|]. intros _.
  destruct ws as [|w' ws']; [simpl; lia|].
  change (join [h] (w :: w' :: ws')) with (w ++ h :: join [h] (w' :: ws')).
  specialize (IH ltac:(discriminate)).
  change (list_sum (List.map (fun w => S (List.length w)) (w :: w' :: ws')))
    with (S (List.length w)
          + list_sum (List.map (fun w => S (List.length w)) (w' :: ws')))%nat.
  remember (join [h] (w' :: ws')) as J eqn:EJ. clear EJ.
  rewrite length_app. simpl List.length. lia.
Qed.

Lemma scan_size cls s : (passSize (scan cls s) <= List.length s)%nat.
Proof.
  induction s as [|c s IH]; [cbv; lia|].
  rewrite scan_cons. unfold scanStep, passSize in *.
  destruct (scan cls s) as [w ws]. simpl in *.
  destruct (cls c); simpl; [lia| |lia].
  unfold push. destruct w; simpl in *; lia.
Qed.

Lemma wordsOf_join_length cls h s :
  (List.length (join [h] (wordsOf cls s)) <= List.length s)%nat.
Proof.
  pose proof (scan_size cls s) as H. unfold wordsOf, passSize in *.
  destruct (scan cls s) as [w ws]. simpl in *. unfold push.
  destruct w as [|c w]; simpl isEmpty; cbv iota.
  - destruct ws as [|v ws]; [simpl; lia|].
    pose proof (join_length h (v :: ws) ltac:(discriminate)) as Hj.
    remember (join [h] (v :: ws)) as J eqn:EJ. clear EJ.
    remember (list_sum (List.map (fun w => S (List.length w)) (v :: ws)))
      as n eqn:En. clear En. simpl in H. lia.
  - destruct ws as [|v ws]; [simpl in *; lia|].
    change (join [h] ((c :: w) :: v :: ws))
      with ((c :: w) ++ h :: join [h] (v :: ws)).
    pose proof (join_length h (v :: ws) ltac:(discriminate)) as Hj.
    remember (join [h] (v :: ws)) as J eqn:EJ. clear EJ.
    remember (list_sum (List.map (fun w => S (List.length w)) (v :: ws)))
      as n eqn:En. clear En.
    rewrite length_app. simpl in *. lia.
Qed.

(** X6: a formatted title is never longer than the title. *)
Theorem formatTitle_not_longer (title : jsstring) :
  (List.length (formatTitle title) <= List.length title)%nat.
Proof.
  unfold formatTitle, formatTitleWith. fold capitalize.
  rewrite join_map_length by apply capitalize_length.
  rewrite titleWords_one_pass. apply wordsOf_join_length.
Qed.

Lemma toUpperCaseUnit_idem c :
  toUpperCaseUnit (toUpperCaseUnit c) = toUpperCaseUnit c.
Proof. apply toUpperCaseUnit_fixed, toUpperCaseUnit_not_lower. Qed.

Lemma capitalize_upper w :
  List.map toUpperCaseUnit (capitalize w) = List.map toUpperCaseUnit w.
Proof.
  destruct w as [|c w]; [reflexivity|].
  unfold capitalize, capitalizeWith. simpl.
  rewrite toUpperCaseUnit_idem. reflexivity.
Qed.

Lemma filter_word_hyphen w :
  Forall (fun c => isAlnum c = true) w ->
  List.filter (fun c => negb (isHyphen c)) w = w.
Proof.
  intros H. apply filter_all. eapply Forall_impl; [|exact H].
  intros c Hc. rewrite (alnum_not_hyphen _ Hc). reflexivity.
Qed.

Lemma filter_join_hyphen ws :
  Forall (fun w => Forall (fun c => isAlnum c = true) w) ws ->
  List.filter (fun c => negb (isHyphen c)) (join [HYPHEN] ws)
  = List.concat ws.
Proof.
  induction 1 as [|w ws Hw _ IH]; [reflexivity|].
  destruct ws as [|w' ws'].
  - simpl. rewrite app_nil_r. apply filter_word_hyphen, Hw.
  - change (join [HYPHEN] (w :: w' :: ws'))
      with (w ++ HYPHEN :: join [HYPHEN] (w' :: ws')).
    rewrite filter_app, filter_word_hyphen by exact Hw.
    change (List.filter (fun c => negb (isHyphen c))
              (HYPHEN :: join [HYPHEN] (w' :: ws')))
      with (List.filter (fun c => negb (isHyphen c))
              (join [HYPHEN] (w' :: ws'))).
    rewrite IH. reflexivity.
Qed.

Lemma classify_Keep_bool c :
  match classify c with Keep => true | _ => false end = isAlnum c.
Proof.
  pose proof (classify_Keep c) as H.
  destruct (classify c); destruct (isAlnum c); intuition congruence.
Qed.

Lemma titleWords_concat title :
  List.concat (titleWords title) = List.filter isAlnum title.
Proof.
  rewrite titleWords_one_pass. unfold wordsOf. rewrite concat_push.
  rewrite scan_concat. apply filter_ext. apply classify_Keep_bool.
Qed.

(** X7: no letter or digit of a title is lost, added or moved: up to the
    case of letters, the formatted title without its hyphens is the title's
    code units of [[a-zA-Z0-9]] in their order. *)
Theorem formatTitle_keeps_alnum (title : jsstring) :
  List.map toUpperCaseUnit
    (List.filter (fun c => negb (isHyphen c)) (formatTitle title))
  = List.map toUpperCaseUnit (List.filter isAlnum title).
Proof.
  unfold formatTitle, formatTitleWith. fold capitalize.
  rewrite filter_join_hyphen.
  2:{ eapply Forall_impl; [|apply formatTitle_words]. intros w (_ & H & _).
      exact H. }
  rewrite <- titleWords_concat.
  rewrite !concat_map, map_map. f_equal.
  apply map_ext. intros w. apply capitalize_upper.
Qed.

(** ** Trimming *)

Lemma trimStart_bound s : startsWith isSpace (trimStart s) = false.
Proof.
  induction s as [|c s IH]; [reflexivity|].
  simpl. destruct (isSpace c) eqn:Ec; [exact IH|]. simpl. exact Ec.
Qed.

Lemma trim_bounds s :
  startsWith isSpace (trim s) = false
  /\ startsWith isSpace (rev (trim s)) = false.
Proof.
  unfold trim. split.
  - destruct (trimEnd_decomp (trimStart s)) as (sp & E & _).
    pose proof (trimStart_bound s) as H. rewrite E in H.
    destruct (trimEnd (trimStart s)); [reflexivity|exact H].
  - unfold trimEnd. rewrite rev_involutive. apply trimStart_bound.
Qed.

(** [trim] gives the one middle part between two runs of whitespace that
    neither starts nor ends with whitespace. *)
Lemma trim_unique a m b :
  Forall (fun c => isSpace c = true) a ->
  Forall (fun c => isSpace c = true) b ->
  startsWith isSpace m = false ->
  startsWith isSpace (rev m) = false ->
  trim (a ++ m ++ b) = m.
Proof.
  intros Ha Hb Hm Hr. rewrite trim_app_spaces by exact Ha.
  destruct m as [|c m].
  - simpl. unfold trim. rewrite trimStart_spaces by exact Hb. reflexivity.
  - unfold trim. rewrite trimStart_id by exact Hm.
    unfold trimEnd. rewrite rev_app_distr.
    rewrite trimStart_app_spaces by (apply Forall_rev, Hb).
    rewrite trimStart_id by exact Hr. apply rev_involutive.
Qed.

Lemma trim_decomp s :
  exists a b, s = a ++ trim s ++ b
              /\ Forall (fun c => isSpace c = true) a
              /\ Forall (fun c => isSpace c = true) b.
Proof.
  destruct (trimStart_decomp s) as (a & Ea & Ha).
  destruct (trimEnd_decomp (trimStart s)) as (b & Eb & Hb).
  exists a, b. unfold trim. rewrite <- Eb. auto.
Qed.

Lemma trim_idem s : trim (trim s) = trim s.
Proof.
  destruct (trim_bounds s) as [H1 H2].
  rewrite <- (trim_unique [] (trim s) []) at 2; auto.
  rewrite app_nil_r. reflexivity.
Qed.

Lemma trim_padding sp1 t sp2 :
  Forall (fun c => isSpace c = true) sp1 ->
  Forall (fun c => isSpace c = true) sp2 ->
  trim (sp1 ++ t ++ sp2) = trim t.
Proof.
  intros H1 H2. destruct (trim_decomp t) as (a & b & E & Ha & Hb).
  destruct (trim_bounds t) as [B1 B2].
  rewrite E at 1.
  replace (sp1 ++ (a ++ trim t ++ b) ++ sp2)
    with ((sp1 ++ a) ++ trim t ++ (b ++ sp2))
    by (rewrite <- !app_assoc; reflexivity).
  apply trim_unique; auto using Forall_app; apply Forall_app; auto.
Qed.

(** ** The extractor: what it returns and what it skips *)

Lemma digit_alnum c : isDigit c = true -> isAlnum c = true.
Proof. char_solve. Qed.

(** X8: an extracted work item is well formed: its id is a non-empty run
    of digits, its title is not empty, has no whitespace at either end and
    no line terminator inside. *)
Theorem extracted_workItem_well_formed (linkText : jsstring) (wi : WorkItem) :
  workItemOfLinkText linkText = Some wi ->
  id wi <> [] /\ forallb isDigit (id wi) = true
  /\ title wi <> [] /\ trim (title wi) = title wi
  /\ existsb isLineTerminator (title wi) = false.
Proof.
  unfold workItemOfLinkText.
  destruct (matchLinkText (trim linkText)) as [[g1 g2]|] eqn:E;
    [|discriminate].
  intros [= <-]. simpl.
  destruct (matchLinkText_sound _ _ _ E)
    as (word & ws & ows & Et & _ & _ & _ & _ & Hd1 & Hd2 & _ & Hf1 & Hf2).
  assert (Hne : trim g2 <> []).
  { destruct (trim_bounds linkText) as [_ Hlast]. rewrite Et in Hlast.
    rewrite !rev_app_distr in Hlast. simpl rev in Hlast.
    rewrite !rev_app_distr in Hlast. rewrite <- !app_assoc in Hlast.
    destruct (rev g2) as [|c r] eqn:Er.
    { apply (f_equal (@rev _)) in Er. rewrite rev_involutive in Er.
      simpl in Er. congruence. }
    simpl in Hlast.
    assert (Hin : In c (trim g2)).
    { apply trim_keeps; [|exact Hlast]. apply in_rev. rewrite Er.
      left. reflexivity. }
    intros En. rewrite En in Hin. destruct Hin. }
  assert (Hlt : existsb isLineTerminator (trim g2) = false).
  { destruct (existsb isLineTerminator (trim g2)) eqn:Ex; [|reflexivity].
    apply existsb_exists in Ex. destruct Ex as (c & Hin & Hc).
    apply trim_In in Hin. rewrite Forall_forall in Hf2.
    specialize (Hf2 c Hin). unfold isDot in Hf2. rewrite Hc in Hf2.
    discriminate. }
  split; [exact Hd1|]. split; [apply forallb_forall, Forall_forall, Hd2|].
  split; [exact Hne|]. split; [apply trim_idem|exact Hlt].
Qed.

Lemma extracted_workItem_well_formed_witness :
  workItemOfLinkText (str "  Bug 4821:  Crash on save ") = Some bug4821
  /\ forallb isDigit (id bug4821) = true
  /\ trim (title bug4821) = title bug4821.
Proof.
  split; [reflexivity|].
  destruct (extracted_workItem_well_formed
              (str "  Bug 4821:  Crash on save ") bug4821 eq_refl)
    as (_ & Hd & _ & Ht & _).
  split; assumption.
Defined.

Lemma workItemOfLinkText_id_digits linkText wi :
  workItemOfLinkText linkText = Some wi -> forallb isDigit (id wi) = true.
Proof.
  unfold workItemOfLinkText.
  destruct (matchLinkText (trim linkText)) as [[g1 g2]|] eqn:E;
    [|discriminate].
  intros [= <-]. simpl.
  destruct (matchLinkText_sound _ _ _ E)
    as (word & ws & ows & _ & _ & _ & _ & _ & _ & Hd & _).
  apply forallb_forall, Forall_forall, Hd.
Qed.

Lemma branchName_alphabet i t :
  forallb isDigit i = true ->
  forallb isBranchChar (buildBranchName i t) = true.
Proof.
  intros Hi. unfold buildBranchName. rewrite !forallb_app.
  apply andb_true_iff. split; [reflexivity|].
  apply andb_true_iff. split.
  - apply forallb_forall. intros c Hc. rewrite forallb_forall in Hi.
    unfold isBranchChar. rewrite (digit_alnum _ (Hi c Hc)). reflexivity.
  - apply andb_true_iff. split; [reflexivity|].
    apply forallb_forall. intros c Hc.
    unfold formatTitle, formatTitleWith in Hc. apply join_In in Hc.
    unfold isBranchChar. destruct Hc as [[<-|[]]|(w & Hw & Hc)];
      [reflexivity|].
    pose proof (formatTitle_words t) as Hall. rewrite Forall_forall in Hall.
    destruct (Hall w Hw) as (_ & Ha & _). rewrite Forall_forall in Ha.
    rewrite (Ha c Hc). reflexivity.
Qed.

(** X9: whatever the dialog shows, the branch name made of an extracted
    work item consists of letters, digits, hyphens and the slash only (no
    whitespace, no other punctuation), and so does the field after
    [fillBranchName] wrote into it. *)
Theorem extracted_branchName_alphabet
  (dialog : Dialog) (wi : WorkItem) (input : HTMLInputElement) :
  getWorkItemFromDialog dialog = Some wi ->
  forallb isBranchChar (buildBranchName (id wi) (title wi)) = true
  /\ (isEmpty (trim (value input)) = true ->
      forallb isBranchChar (value (fillBranchName input wi)) = true).
Proof.
  intros H. unfold getWorkItemFromDialog in H.
  destruct (extensionsRegion dialog) as [anchors|]; [|discriminate].
  destruct (queryWorkItemLink anchors) as [link|]; [|discriminate].
  pose proof (workItemOfLinkText_id_digits _ _ H) as Hd.
  split; [apply branchName_alphabet, Hd|].
  intros Hb. rewrite fillBranchName_value by exact Hb.
  apply branchName_alphabet, Hd.
Qed.

Lemma extracted_branchName_alphabet_witness :
  getWorkItemFromDialog (dialogOf page4821) = Some bug4821
  /\ forallb isBranchChar (value (fillBranchName emptyInput bug4821)) = true.
Proof.
  split; [reflexivity|].
  apply (proj2 (extracted_branchName_alphabet (dialogOf page4821) bug4821
                  emptyInput eq_refl)).
  reflexivity.
Defined.

Lemma find_skip {A} (f : A -> bool) skipped x rest :
  forallb (fun a => negb (f a)) skipped = true -> f x = true ->
  List.find f (skipped ++ x :: rest) = Some x.
Proof.
  intros Hs Hx. induction skipped as [|a l IH]; simpl.
  - rewrite Hx. reflexivity.
  - simpl in Hs. apply andb_true_iff in Hs. destruct Hs as [Ha Hl].
    apply negb_true_iff in Ha. rewrite Ha. apply IH, Hl.
Qed.

Lemma find_none_all {A} (f : A -> bool) l :
  forallb (fun a => negb (f a)) l = true -> List.find f l = None.
Proof.
  induction l as [|a l IH]; [reflexivity|]. simpl. intros H.
  apply andb_true_iff in H. destruct H as [Ha Hl].
  apply negb_true_iff in Ha. rewrite Ha. apply IH, Hl.
Qed.

(** X10: only the first work-item link of the region counts: links without
    the marker in their [href] are passed over, and the result is that of the
    first link with the marker, whatever comes after it; so a malformed
    first link gives no match even when a well-formed one follows.  A region
    without any such link gives no match. *)
Theorem first_workItem_link_decides
  (dialog : Dialog) (skipped rest : list Anchor) (link : Anchor) :
  forallb (fun a => negb (isWorkItemLink a)) skipped = true ->
  (extensionsRegion dialog = Some (skipped ++ link :: rest) ->
   isWorkItemLink link = true ->
   getWorkItemFromDialog dialog = workItemOfLinkText (textContent link))
  /\ (extensionsRegion dialog = Some skipped ->
      getWorkItemFromDialog dialog = None).
Proof.
  intros Hs. unfold getWorkItemFromDialog, queryWorkItemLink. split.
  - intros -> Hl.
    rewrite (find_skip (fun a => includes (href a) (str "_workitems/edit/")))
      by assumption.
    reflexivity.
  - intros ->.
    rewrite (find_none_all
               (fun a => includes (href a) (str "_workitems/edit/")))
      by assumption.
    reflexivity.
Qed.

Lemma first_workItem_link_decides_witness :
  getWorkItemFromDialog
    {| itemNameInput := None;
       extensionsRegion := Some ([linkElsewhere] ++ linkMalformed :: [link100])
    |}
  = None.
Proof.
  etransitivity.
  - apply (proj1 (first_workItem_link_decides
                    {| itemNameInput := None;
                       extensionsRegion :=
                         Some ([linkElsewhere] ++ linkMalformed :: [link100])
                    |}
                    [linkElsewhere] [link100] linkMalformed eq_refl));
      reflexivity.
  - reflexivity.
Defined.

(** X11: whitespace around the link text does not matter: the extractor
    gives the same result with and without it. *)
Theorem extractor_ignores_padding (sp1 text sp2 : jsstring) :
  forallb isSpace sp1 = true -> forallb isSpace sp2 = true ->
  workItemOfLinkText (sp1 ++ text ++ sp2) = workItemOfLinkText text.
Proof.
  intros H1 H2. unfold workItemOfLinkText.
  rewrite trim_padding; [reflexivity| |];
    apply Forall_forall, forallb_forall; assumption.
Qed.

Lemma extractor_ignores_padding_witness :
  workItemOfLinkText ([10; 32; 32] ++ str "Task 100: Add login page" ++ [9; 10])
  = Some task100.
Proof.
  etransitivity.
  - apply (extractor_ignores_padding [10; 32; 32]
             (str "Task 100: Add login page") [9; 10]); reflexivity.
  - reflexivity.
Defined.

(** X12: the type of the work item must be one word: when the (trimmed)
    link text starts with a word and whitespace and goes on with anything
    but a digit, as in ["User Story 12: ..."], there is no match. *)
Theorem extractor_rejects_second_word
  (linkText word ws rest : jsstring) (c : char) :
  trim linkText = word ++ ws ++ c :: rest ->
  forallb isWordChar word = true ->
  ws <> [] -> forallb isSpace ws = true ->
  isDigit c = false -> isSpace c = false ->
  workItemOfLinkText linkText = None.
Proof.
  intros Et Hw Hne Hs Hd Hc. unfold workItemOfLinkText.
  destruct (matchLinkText (trim linkText)) as [[g1 g2]|] eqn:E;
    [|reflexivity].
  exfalso. apply matchLinkText_sound in E.
  destruct E as (word' & ws' & ows & E & Hw1 & Hw2 & Hs1 & Hs2 & Hd1 & Hd2 & _).
  rewrite Et in E.
  rewrite forallb_forall in Hw, Hs.
  apply (run_unique isWordChar) in E;
    [|apply Forall_forall; assumption|assumption| |].
  - destruct E as [_ E].
    apply (run_unique isSpace) in E;
      [|apply Forall_forall; assumption|assumption|exact Hc|].
    + destruct E as [_ E]. destruct g1 as [|d g1]; [congruence|].
      simpl in E. injection E as <- _. inversion Hd2; subst. congruence.
    + apply (startsWith_app_false _ isDigit); auto.
      intros x Hx. apply word_not_space, digit_not_word_start, Hx.
  - destruct ws as [|x ws]; [congruence|]. simpl.
    destruct (isWordChar x) eqn:Ex; [|reflexivity].
    specialize (Hs x (or_introl eq_refl)).
    rewrite (word_not_space _ Ex) in Hs. discriminate Hs.
  - apply (startsWith_app_false _ isSpace); auto.
    intros x Hx. destruct (isWordChar x) eqn:Ex; [|reflexivity].
    rewrite (word_not_space _ Ex) in Hx. discriminate.
Qed.

Lemma extractor_rejects_second_word_witness :
  workItemOfLinkText (str "User Story 12: Export report") = None.
Proof.
  apply (extractor_rejects_second_word (str "User Story 12: Export report")
           (str "User") (str " ") (str "tory 12: Export report") 83);
    try reflexivity.
  discriminate.
Defined.

(** ** Episodes: what the script does to the field *)

Lemma workItemIn_id_digits r wi :
  workItemIn r = Some wi -> forallb isDigit (id wi) = true.
Proof.
  unfold workItemIn, getWorkItemFromDialog. simpl.
  destruct r as [anchors|]; [|discriminate].
  destruct (queryWorkItemLink anchors); [|discriminate].
  apply workItemOfLinkText_id_digits.
Qed.

(** A task other than the user's typing leaves the field alone, or it is the
    observer's callback calling [fillBranchName] with the work item the
    region then shows. *)
Lemma step_input p e p' :
  step p e = Some p' -> isUserInput e = false ->
  (calls p' = calls p /\ branchInput p' = branchInput p)
  \/ (exists wi, workItemIn (region p') = Some wi
                 /\ calls p' = calls p ++ [wi]
                 /\ branchInput p' = fillBranchName (branchInput p) wi).
Proof.
  destruct e; simpl; try discriminate.
  - destruct (waiter p) as [w|]; [|intros [= <-]; auto].
    destruct (observing w); [|intros [= <-]; auto].
    unfold observerCallback. destruct (settled w); [intros [= <-]; auto|].
    rewrite getWorkItemFromDialog_region. simpl.
    destruct (workItemIn r) as [wi|] eqn:Ewi; intros [= <-] _; [|auto].
    right. exists wi. simpl. auto.
  - intros [= <-]. auto.
  - intros [= <-]. auto.
  - destruct (waiter p) as [w|]; [|discriminate].
    destruct (timer w); [|discriminate].
    destruct (_ <=? _); [|discriminate].
    unfold timeoutCallback. simpl. destruct (settled w); intros [= <-]; auto.
Qed.

(** Without the user's typing, the field is what the recorded calls of
    [fillBranchName] made of it, and every call had an extracted work item. *)
Lemma run_input es : forall p p',
  run p es = Some p' -> existsb isUserInput es = false ->
  exists l,
    calls p' = calls p ++ l
    /\ branchInput p' = fold_left fillBranchName l (branchInput p)
    /\ Forall (fun wi => forallb isDigit (id wi) = true) l.
Proof.
  induction es as [|e es IH]; simpl; intros p p'.
  - intros [= <-] _. exists []. rewrite app_nil_r. auto.
  - destruct (step p e) as [q|] eqn:E; [|discriminate]. intros H Hu.
    apply orb_false_iff in Hu. destruct Hu as [Hue Hu].
    destruct (IH _ _ H Hu) as (l & Hc & Hi & Hd).
    destruct (step_input _ _ _ E Hue) as [[Ec Ei]|(wi & Hwi & Ec & Ei)].
    + exists l. rewrite Hc, Hi, Ec, Ei. auto.
    + exists (wi :: l). rewrite Hc, Hi, Ec, Ei, <- app_assoc.
      split; [reflexivity|]. split; [reflexivity|].
      constructor; [|exact Hd]. apply (workItemIn_id_digits _ _ Hwi).
Qed.

Lemma fold_fillBranchName_skip l : forall input,
  isEmpty (trim (value input)) = false ->
  fold_left fillBranchName l input = input.
Proof.
  induction l as [|wi l IH]; intros input H; [reflexivity|].
  simpl. rewrite fillBranchName_skip by exact H. apply IH, H.
Qed.

(** X13: the user's typing wins: once the user has put a non-blank text
    into the field, no later task of the script (observer callback, timer
    callback), in whatever state the episode is, changes the field. *)
Theorem typed_value_survives
  (p : Page) (v : jsstring) (es : list Event) (p' : Page) :
  isEmpty (trim v) = false ->
  existsb isUserInput es = false ->
  run p (UserInput v :: es) = Some p' ->
  branchInput p' = typeInto (branchInput p) v
  /\ value (branchInput p') = v.
Proof.
  intros Hv Hu Hrun. simpl in Hrun.
  destruct (run_input _ _ _ Hrun Hu) as (l & _ & Hi & _).
  simpl in Hi. rewrite fold_fillBranchName_skip in Hi by exact Hv.
  rewrite Hi. split; reflexivity.
Qed.

Lemma typed_value_survives_witness :
  exists p',
    run (waitForWorkItem page0)
      [UserInput (str "my-branch"); RegionMutation (Some [link100]);
       Elapse 10000; TimerTask] = Some p'
    /\ value (branchInput p') = str "my-branch"
    /\ calls p' = [task100].
Proof.
  eexists. split; [vm_compute; reflexivity|]. split; [|reflexivity].
  apply (proj2 (typed_value_survives (waitForWorkItem page0) (str "my-branch")
                  [RegionMutation (Some [link100]); Elapse 10000; TimerTask]
                  _ eq_refl eq_refl eq_refl)).
Defined.



(** X15: without the user's typing, an episode that started on a blank
    field leaves the field untouched, or it holds the branch name of one
    extracted work item, written by the one call of [fillBranchName]. *)
Theorem episode_field_value (p0 : Page) (es : list Event) (p : Page) :
  waiter p0 = None ->
  isEmpty (trim (value (branchInput p0))) = true ->
  existsb isUserInput es = false ->
  run (waitForWorkItem p0) es = Some p ->
  (calls p = calls p0 /\ branchInput p = branchInput p0)
  \/ (exists wi,
        calls p = calls p0 ++ [wi]
        /\ branchInput p = fillBranchName (branchInput p0) wi
        /\ value (branchInput p) = buildBranchName (id wi) (title wi)
        /\ forallb isBranchChar (value (branchInput p)) = true).
Proof.
  intros H0 Hblank Hu Hrun.
  assert (Hfill : forall wi,
            forallb isDigit (id wi) = true ->
            value (fillBranchName (branchInput p0) wi)
            = buildBranchName (id wi) (title wi)
            /\ forallb isBranchChar
                 (value (fillBranchName (branchInput p0) wi)) = true).
  { intros wi Hd. rewrite fillBranchName_value by exact Hblank.
    split; [reflexivity|apply branchName_alphabet, Hd]. }
  destruct (workItemIn (region p0)) as [wi|] eqn:Ewi.
  - rewrite (waitForWorkItem_found _ _ Ewi) in Hrun.
    pose proof (run_no_waiter es (callFillBranchName p0 wi) p H0 Hrun)
      as [_ Hc].
    destruct (run_input _ _ _ Hrun Hu) as (l & Hc' & Hi & _).
    simpl in Hc, Hc', Hi. rewrite Hc in Hc'.
    assert (l = []).
    { apply (f_equal (@List.length _)) in Hc'. rewrite !length_app in Hc'.
      destruct l; [reflexivity|simpl in Hc'; lia]. }
    subst l. simpl in Hi. right. exists wi.
    destruct (Hfill wi (workItemIn_id_digits _ _ Ewi)) as [Hv Ha].
    rewrite Hi. auto.
  - rewrite (waitForWorkItem_waits _ Ewi) in Hrun.
    destruct (run_input _ _ _ Hrun Hu) as (l & Hc & Hi & Hd).
    eapply run_waiting in Hrun; [|reflexivity..].
    destruct Hrun as (w & l' & _ & _ & Hc' & Hl & _).
    simpl in Hc, Hc', Hi. rewrite Hc in Hc'. apply app_inv_head in Hc'.
    subst l'. destruct l as [|wi [|wi' l]].
    + left. rewrite app_nil_r in Hc. auto.
    + right. exists wi. inversion Hd; subst.
      destruct (Hfill wi ltac:(assumption)) as [Hv Ha].
      simpl in Hi. rewrite Hi. auto.
    + simpl in Hl. lia.
Qed.

Lemma episode_field_value_witness :
  exists p,
    run (waitForWorkItem page0)
      [Elapse 40; RegionMutation (Some [link100]); HostUpdate None] = Some p
    /\ value (branchInput p) = str "feature/100-Add-Login-Page".
Proof.
  eexists. split; [vm_compute; reflexivity|].
  destruct (episode_field_value page0
              [Elapse 40; RegionMutation (Some [link100]); HostUpdate None]
              _ eq_refl eq_refl eq_refl eq_refl)
    as [[Hc _]|(wi & Hc & _ & Hv & _)].
  - discriminate Hc.
  - injection Hc as <-. etransitivity; [exact Hv|reflexivity].
Defined.

(** ** The draft and the final script *)



(** ** Edge cases of the formatter and of the link selector *)

Lemma existsb_filter_nil {A} (f : A -> bool) l :
  existsb f l = false <-> List.filter f l = [].
Proof.
  induction l as [|a l IH]; simpl; [tauto|].
  destruct (f a); simpl; [split; discriminate|exact IH].
Qed.

(** X18: the formatted title is empty exactly when the title has no letter
    and no digit of [[a-zA-Z0-9]]; these are the titles for which the branch
    name ends with the hyphen after the id. *)
Theorem formatTitle_empty_iff (title : jsstring) :
  formatTitle title = [] <-> existsb isAlnum title = false.
Proof.
  rewrite existsb_filter_nil, <- titleWords_concat.
  unfold formatTitle, formatTitleWith. fold capitalize.
  pose proof (formatTitle_words title) as Hws.
  rewrite join_nil_iff by (apply capitalized_not_nil, Hws).
  split.
  - intros H. destruct (titleWords title); [reflexivity|discriminate].
  - intros H. destruct (titleWords title) as [|w ws] eqn:E; [reflexivity|].
    exfalso. assert (Hw : In w (titleWords title)) by (rewrite E; left; auto).
    destruct (titleWords_spec _ _ Hw) as [Hne _].
    simpl in H. apply app_eq_nil in H. destruct H. contradiction.
Qed.

Lemma isPrefix_spec n : forall h,
  isPrefix n h = true <-> exists post, h = n ++ post.
Proof.
  induction n as [|x n IH]; intros h; simpl.
  - split; [eauto|reflexivity].
  - destruct h as [|y h].
    + split; [discriminate|]. intros [post E]. discriminate.
    + rewrite andb_true_iff, N.eqb_eq, IH. split.
      * intros [-> [post ->]]. eauto.
      * intros [post E]. injection E as -> ->. eauto.
Qed.

Lemma includes_spec needle : forall hay,
  includes hay needle = true <-> exists pre post, hay = pre ++ needle ++ post.
Proof.
  induction hay as [|c hay IH].
  - simpl. rewrite orb_false_r, isPrefix_spec. split.
    + intros [post E]. exists [], post. exact E.
    + intros (pre & post & E). destruct pre; [eauto|discriminate].
  - change (includes (c :: hay) needle)
      with (isPrefix needle (c :: hay) || includes hay needle).
    rewrite orb_true_iff, isPrefix_spec, IH. split.
    + intros [[post E]|(pre & post & E)].
      * exists [], post. exact E.
      * exists (c :: pre), post. rewrite E. reflexivity.
    + intros (pre & post & E). destruct pre as [|x pre].
      * left. eauto.
      * right. injection E as -> E. eauto.
Qed.

(** X17: a link is taken for a work-item link exactly when its [href]
    holds the text [_workitems/edit/] somewhere, with the same letter case;
    a region all of whose links lack it gives no work item, whatever their
    texts. *)
Theorem workItem_link_marker (a : Anchor) (anchors : list Anchor) :
  (isWorkItemLink a = true
   <-> exists pre post, href a = pre ++ str "_workitems/edit/" ++ post)
  /\ (forallb (fun x => negb (isWorkItemLink x)) anchors = true ->
      workItemIn (Some anchors) = None).
Proof.
  split; [apply includes_spec|].
  intros H. unfold workItemIn, getWorkItemFromDialog, queryWorkItemLink.
  simpl.
  rewrite (find_none_all
             (fun x => includes (href x) (str "_workitems/edit/")))
    by exact H.
  reflexivity.
Qed.

Lemma workItem_link_marker_witness :
  isWorkItemLink link100 = true
  /\ workItemIn
       (Some [{| href := str "https://dev.azure.com/org/_WorkItems/Edit/5";
                 textContent := str "Bug 5: Upper case path" |}]) = None.
Proof.
  split.
  - apply (proj1 (workItem_link_marker link100 [])).
    exists (str "https://dev.azure.com/org/proj/"), (str "100"). reflexivity.
  - apply (proj2 (workItem_link_marker link100
                    [{| href := str "https://dev.azure.com/org/_WorkItems/Edit/5";
                        textContent := str "Bug 5: Upper case path" |}])).
    reflexivity.
Defined.
